(** * gpool: a bounded pool of network connections

    A shallow embedding of the Go package [pool] (pool.go and conn.go) and
    the properties of its capacity accounting.

    The Go code is modelled sequentially: every exported method runs to
    completion before the next one starts.  Three things can happen to a
    call: it returns, it panics (a method is called on a nil interface
    value, or a nil function is called), or it blocks for ever on a channel
    operation that nobody else will ever complete.  The mutexes [Pool.mu]
    and [GConn.mu] are released on every path (explicitly or by a deferred
    unlock) and are never taken twice by one call, so they do not appear in
    the sequential model.  Logging is modelled only through the arguments it
    evaluates: [conn.RemoteAddr()] is a method call on an interface value and
    panics when that value is nil. *)

From Stdlib Require Import ZArith List Bool Lia.
From Stdlib Require String.
Import ListNotations.
Local Open Scope Z_scope.

(** ** Go's [int] *)

Module GoInt.

(** [int] on a 64-bit target: signed, two's complement, overflow wraps. *)
Definition bits : Z := 64.
Definition min_int : Z := - 2 ^ (bits - 1).
Definition max_int : Z := 2 ^ (bits - 1) - 1.

Definition wrap (z : Z) : Z :=
  (z - min_int) mod 2 ^ bits + min_int.

(** [x++] and [x--] *)
Definition incr (x : Z) : Z := wrap (x + 1).
Definition decr (x : Z) : Z := wrap (x - 1).

Definition in_range (z : Z) : Prop := min_int <= z <= max_int.

End GoInt.

Arguments GoInt.wrap : simpl never.
Arguments GoInt.incr : simpl never.
Arguments GoInt.decr : simpl never.

(** ** Values *)

(** A live [net.Conn] object is identified by a number; the interface value
    [net.Conn] is either nil or such an object. *)
Definition ConnId := nat.
Abbreviation conn := (option ConnId).

Inductive error : Type :=
| ErrClosed                     (* "pool has been closed" *)
| ErrNil                        (* "pool is nil" *)
| ErrInvalidCapacity            (* "invalid capacity setting" *)
| ErrFillPool (cause : error)   (* "factory is not able to fill the pool: %s" *)
| ErrMoreThanMaxCap             (* "More than MaxCap" *)
| ErrNilConnRejected            (* "connection is nil. rejecting" *)
| ErrExternal (code : nat).     (* an error made by a collaborator: the
                                   factory, a raw connection's Close, or
                                   ctx.Err() *)

(** Go's [error] interface value: [None] is nil. *)
Abbreviation goerror := (option error).

Record Config : Type := mkConfig {
  Network : String.string;
  Address : String.string;
  InitCap : Z;
  MaxCap : Z;
  WaitTimeout : Z;
  IdleTimeout : Z
}.

(** The pool.  [conns] is the buffered channel of idle connections, oldest
    first, [None] when the field is nil; its capacity is [MaxCap].
    [factory] records whether the field holds a function or nil; what the
    function returns when it is called is given to the calling operation as
    an argument.  [remainingSpace] is a channel of capacity [MaxCap] that
    only ever carries the value [true], so it is represented by the number
    of values buffered in it: the free capacity tokens. *)
Record Pool : Type := mkPool {
  conns : option (list conn);
  factory : bool;
  config : Config;
  idleConns : Z;
  createNum : Z;
  remainingSpace : nat
}.

Definition set_conns (q : option (list conn)) (p : Pool) : Pool :=
  mkPool q (factory p) (config p) (idleConns p) (createNum p) (remainingSpace p).
Definition set_factory (f : bool) (p : Pool) : Pool :=
  mkPool (conns p) f (config p) (idleConns p) (createNum p) (remainingSpace p).
Definition set_idleConns (n : Z) (p : Pool) : Pool :=
  mkPool (conns p) (factory p) (config p) n (createNum p) (remainingSpace p).
Definition set_createNum (n : Z) (p : Pool) : Pool :=
  mkPool (conns p) (factory p) (config p) (idleConns p) n (remainingSpace p).
Definition set_remainingSpace (n : nat) (p : Pool) : Pool :=
  mkPool (conns p) (factory p) (config p) (idleConns p) (createNum p) n.

(** The wrapper handed to callers.  Its back-reference [p] is the one pool
    of the model. *)
Record GConn : Type := mkGConn {
  Conn : conn;
  unusable : bool
}.

(** What one call of the factory returns: [(net.Conn, error)]. *)
Definition FactoryResult : Type := (conn * goerror)%type.

(** Everything the operations touch: the pool, and the raw connections whose
    own [Close] method has been called, in call order. *)
Record World : Type := mkWorld {
  pool : Pool;
  closed : list ConnId
}.

(** ** Calls that return, panic or block *)

Inductive outcome (A : Type) : Type :=
| Returns (a : A)
| Panics
| Blocks.
Arguments Returns {A} a.
Arguments Panics {A}.
Arguments Blocks {A}.

(** A call transforms the world; when it panics or blocks, the world is the
    one reached at that point. *)
Definition M (A : Type) : Type := World -> outcome A * World.

Definition ret {A} (a : A) : M A := fun w => (Returns a, w).

Definition bind {A B} (m : M A) (k : A -> M B) : M B :=
  fun w =>
    match m w with
    | (Returns a, w') => k a w'
    | (Panics, w') => (Panics, w')
    | (Blocks, w') => (Blocks, w')
    end.

Declare Scope go_scope.
Delimit Scope go_scope with go.
Notation "x <- c ;; k" := (bind c (fun x => k))
  (at level 61, c at next level, right associativity) : go_scope.
Notation "c ;; k" := (bind c (fun _ => k))
  (at level 61, right associativity) : go_scope.
Local Open Scope go_scope.

Definition panic {A} : M A := fun w => (Panics, w).
Definition block {A} : M A := fun w => (Blocks, w).
Definition getPool : M Pool := fun w => (Returns (pool w), w).
Definition modifyPool (f : Pool -> Pool) : M unit :=
  fun w => (Returns tt, mkWorld (f (pool w)) (closed w)).

(** ** Collaborators *)

(** [conn.RemoteAddr()], evaluated for a log field. *)
Definition RemoteAddr (c : conn) : M unit :=
  match c with
  | None => panic
  | Some _ => ret tt
  end.

(** [conn.Close()] on a raw connection; the error it returns is supplied by
    the caller of the operation where the code uses it. *)
Definition connClose (c : conn) : M unit :=
  match c with
  | None => panic
  | Some id => fun w => (Returns tt, mkWorld (pool w) (closed w ++ [id]))
  end.

(** ** pool.go *)

(** [p.remainingSpace <- true] *)
Definition addRemainingSpace : M unit :=
  p <- getPool ;;
  if Z.of_nat (remainingSpace p) <? MaxCap (config p)
  then modifyPool (set_remainingSpace (S (remainingSpace p)))
  else block.

(** [<-p.remainingSpace] *)
Definition removeRemainingSpace : M unit :=
  p <- getPool ;;
  match remainingSpace p with
  | O => block
  | S n => modifyPool (set_remainingSpace n)
  end.

(** [p.conns <- conn], the blocking send of [New]. *)
Definition sendConn (c : conn) : M unit :=
  p <- getPool ;;
  match conns p with
  | None => block
  | Some q =>
      if Z.of_nat (length q) <? MaxCap (config p)
      then modifyPool (set_conns (Some (q ++ [c])))
      else block
  end.

Definition wrapConn (c : conn) : M GConn :=
  RemoteAddr c ;;
  ret (mkGConn c false).

(** Calling the function value captured from [p.factory]. *)
Definition callFactory (present : bool) (fr : FactoryResult) : M FactoryResult :=
  if present then ret fr else panic.

(** The loop [for conn := range conns] of [Close], over the detached queue. *)
Fixpoint drain (q : list conn) : M unit :=
  match q with
  | [] => ret tt
  | c :: q' => connClose c ;; addRemainingSpace ;; drain q'
  end.

Definition Close : M unit :=
  p <- getPool ;;
  modifyPool (fun p => set_factory false (set_conns None p)) ;;
  match conns p with
  | None => ret tt
  | Some q => drain q
  end.

(** [Return(conn)]; [cerr] is what [conn.Close()] returns if it is called. *)
Definition Return (c : conn) (cerr : goerror) : M goerror :=
  match c with
  | None =>
      RemoteAddr c ;;
      ret (Some ErrNilConnRejected)
  | Some _ =>
      p <- getPool ;;
      match conns p with
      | None =>
          RemoteAddr c ;;
          connClose c ;;
          ret cerr
      | Some q =>
          if Z.of_nat (length q) <? MaxCap (config p)
          then
            modifyPool (set_conns (Some (q ++ [c]))) ;;
            modifyPool (fun p => set_idleConns (GoInt.incr (idleConns p)) p) ;;
            ret None
          else
            RemoteAddr c ;;
            connClose c ;;
            ret cerr
      end
  end.

(** The first case of both selects: a value was received from [conns]. *)
Definition takeIdle (c : conn) (rest : list conn) : M (GConn + error) :=
  modifyPool (set_conns (Some rest)) ;;
  match c with
  | None => ret (inr ErrClosed)
  | Some _ =>
      RemoteAddr c ;;
      modifyPool (fun p => set_idleConns (GoInt.decr (idleConns p)) p) ;;
      g <- wrapConn c ;;
      ret (inl g)
  end.

(** [Get()]; [fr] is what the factory returns if it is called. *)
Definition Get (fr : FactoryResult) : M (GConn + error) :=
  p <- getPool ;;
  match conns p with
  | None => ret (inr ErrNil)
  | Some (c :: rest) => takeIdle c rest
  | Some [] =>
      modifyPool (fun p => set_createNum (GoInt.incr (createNum p)) p) ;;
      p' <- getPool ;;
      if createNum p' >? MaxCap (config p')
      then ret (inr ErrMoreThanMaxCap)
      else
        r <- callFactory (factory p) fr ;;
        RemoteAddr (fst r) ;;
        removeRemainingSpace ;;
        match snd r with
        | Some e =>
            addRemainingSpace ;;
            ret (inr e)
        | None =>
            g <- wrapConn (fst r) ;;
            ret (inl g)
        end
  end.

(** The cases of the select in [BlockingGet]. *)
Inductive BGCase : Type := CaseConn | CaseToken | CaseDone.

(** A context, as far as the select sees it: [Some e] when [ctx.Done()] is
    closed and [ctx.Err()] is [e]; [None] for a nil context or one that is
    not done. *)
Definition Ctx : Type := option error.

(** The cases that can proceed, in source order. *)
Definition ready (q : list conn) (p : Pool) (ctx : Ctx) : list BGCase :=
  (match q with [] => [] | _ :: _ => [CaseConn] end) ++
  (match remainingSpace p with O => [] | S _ => [CaseToken] end) ++
  (match ctx with None => [] | Some _ => [CaseDone] end).

Definition runCase (k : BGCase) (present : bool) (q : list conn) (ctx : Ctx)
    (fr : FactoryResult) : M (GConn + error) :=
  match k with
  | CaseConn =>
      match q with
      | c :: rest => takeIdle c rest
      | [] => block
      end
  | CaseToken =>
      removeRemainingSpace ;;
      modifyPool (fun p => set_createNum (GoInt.incr (createNum p)) p) ;;
      r <- callFactory present fr ;;
      match snd r with
      | Some e =>
          addRemainingSpace ;;
          ret (inr e)
      | None =>
          RemoteAddr (fst r) ;;
          g <- wrapConn (fst r) ;;
          ret (inl g)
      end
  | CaseDone =>
      match ctx with
      | Some e => ret (inr e)
      | None => block
      end
  end.

(** When several cases of the select can proceed Go picks one at random:
    [pick] is that choice, an index into the ready cases.  When none can
    proceed there is nothing to select. *)
Definition selectCase (q : list conn) (p : Pool) (ctx : Ctx) (pick : nat)
    : option BGCase :=
  match ready q p ctx with
  | [] => None
  | k :: ks => Some (nth (pick mod length (k :: ks)) (k :: ks) k)
  end.

(** [BlockingGet(ctx)]; [fr] is what the factory returns if it is called. *)
Definition BlockingGet (ctx : Ctx) (pick : nat) (fr : FactoryResult)
    : M (GConn + error) :=
  p <- getPool ;;
  match conns p with
  | None => ret (inr ErrNil)
  | Some q =>
      match selectCase q p ctx pick with
      | None => block
      | Some k => runCase k (factory p) q ctx fr
      end
  end.

(** [len(conns)]: zero for a nil channel. *)
Definition Len : M Z :=
  p <- getPool ;;
  ret (match conns p with
       | None => 0
       | Some q => Z.of_nat (length q)
       end).

Definition Idle : M Z :=
  p <- getPool ;;
  ret (idleConns p).

(** The two loops of [New]. *)
Fixpoint fillTokens (n : nat) : M unit :=
  match n with
  | O => ret tt
  | S n' => addRemainingSpace ;; fillTokens n'
  end.

Fixpoint fillConns (n : nat) (i : nat) (dial : nat -> FactoryResult)
    : M goerror :=
  match n with
  | O => ret None
  | S n' =>
      p <- getPool ;;
      r <- callFactory (factory p) (dial i) ;;
      removeRemainingSpace ;;
      match snd r with
      | Some e =>
          Close ;;
          addRemainingSpace ;;
          ret (Some (ErrFillPool e))
      | None =>
          modifyPool (set_createNum (InitCap (config p))) ;;
          sendConn (fst r) ;;
          fillConns n' (S i) dial
      end
  end.

(** [New(pc)].  [dial i] is what the [i]-th call of the factory returns;
    [closed0] is the log of raw closes so far.  The result is the pool or
    the error, and the log afterwards. *)
Definition New (pc : Config) (dial : nat -> FactoryResult)
    (closed0 : list ConnId) : outcome (Pool + error) * list ConnId :=
  if (InitCap pc <? 0) || (MaxCap pc <? 0) || (InitCap pc >? MaxCap pc)
  then (Returns (inr ErrInvalidCapacity), closed0)
  else
    let p := mkPool (Some []) true pc (InitCap pc) 0 O in
    match (fillTokens (Z.to_nat (MaxCap pc)) ;;
           fillConns (Z.to_nat (InitCap pc)) O dial) (mkWorld p closed0) with
    | (Returns None, w) => (Returns (inl (pool w)), closed w)
    | (Returns (Some e), w) => (Returns (inr e), closed w)
    | (Panics, w) => (Panics, closed w)
    | (Blocks, w) => (Blocks, closed w)
    end.

(** ** conn.go *)

(** [MarkUnusable] sets the flag of the wrapper it is called on; the
    wrapper after the call is the result. *)
Definition MarkUnusable (g : GConn) : M GConn :=
  RemoteAddr (Conn g) ;;
  ret (mkGConn (Conn g) true).

(** [GConn.Close]; [cerr] is what the raw [Close] returns if it is called. *)
Definition GConn_Close (g : GConn) (cerr : goerror) : M goerror :=
  RemoteAddr (Conn g) ;;
  if unusable g
  then
    match Conn g with
    | Some _ =>
        addRemainingSpace ;;
        connClose (Conn g) ;;
        ret cerr
    | None => ret None
    end
  else Return (Conn g) cerr.

(** ** Programs of calls *)

(** One call on the pool, with what its collaborators answer. *)
Inductive op : Type :=
| OGet (fr : FactoryResult)
| OBlockingGet (ctx : Ctx) (pick : nat) (fr : FactoryResult)
| OReturn (c : conn) (cerr : goerror)
| OClose
| OGConnClose (g : GConn) (cerr : goerror)
| OLen
| OIdle.

Inductive result : Type :=
| RGot (r : GConn + error)
| RErr (e : goerror)
| RUnit
| RInt (n : Z).

Definition fmap {A B} (f : A -> B) (m : M A) : M B :=
  a <- m ;; ret (f a).

Definition exec (o : op) : M result :=
  match o with
  | OGet fr => fmap RGot (Get fr)
  | OBlockingGet ctx pick fr => fmap RGot (BlockingGet ctx pick fr)
  | OReturn c cerr => fmap RErr (Return c cerr)
  | OClose => fmap (fun _ => RUnit) Close
  | OGConnClose g cerr => fmap RErr (GConn_Close g cerr)
  | OLen => fmap RInt Len
  | OIdle => fmap RInt Idle
  end.

(** The world after a call, whatever its outcome. *)
Definition after {A} (m : M A) (w : World) : World := snd (m w).

(** The world after a list of calls made one after the other.  A call that
    panics or blocks is abandoned where it stands and the next call is made
    on the world it left. *)
Fixpoint run (tr : list op) (w : World) : World :=
  match tr with
  | [] => w
  | o :: tr' => run tr' (after (exec o) w)
  end.

(** ** Borrowed connections *)

(** The connections in the hands of callers: handed out by [Get] or
    [BlockingGet] and not yet given back.  The code keeps no such record;
    it is kept here beside the world to state the accounting. *)
Record Sys : Type := mkSys {
  world : World;
  borrowed : list ConnId
}.

Fixpoint remove1 (c : ConnId) (l : list ConnId) : list ConnId :=
  match l with
  | [] => []
  | x :: l' => if Nat.eqb c x then l' else x :: remove1 c l'
  end.

Definition lend (r : outcome result) (b : list ConnId) : list ConnId :=
  match r with
  | Returns (RGot (inl (mkGConn (Some c) _))) => c :: b
  | _ => b
  end.

Definition giveBack (c : conn) (r : outcome result) (b : list ConnId)
    : list ConnId :=
  match r, c with
  | Returns _, Some id => remove1 id b
  | _, _ => b
  end.

Definition step (o : op) (s : Sys) : outcome result * Sys :=
  let (r, w) := exec o (world s) in
  (r, mkSys w
        match o with
        | OGet _ | OBlockingGet _ _ _ => lend r (borrowed s)
        | OReturn c _ => giveBack c r (borrowed s)
        | OGConnClose g _ => giveBack (Conn g) r (borrowed s)
        | OClose | OLen | OIdle => borrowed s
        end).

(** Connections sitting in the idle queue. *)
Definition idle (p : Pool) : Z :=
  match conns p with
  | None => 0
  | Some q => Z.of_nat (length q)
  end.

(** Idle plus borrowed plus free tokens is [MaxCap]. *)
Definition accounted (s : Sys) : Prop :=
  idle (pool (world s)) + Z.of_nat (length (borrowed s))
    + Z.of_nat (remainingSpace (pool (world s)))
  = MaxCap (config (pool (world s))).

Definition closedPool (p : Pool) : bool :=
  match conns p with None => true | Some _ => false end.

(** A channel never holds more values than its capacity. *)
Definition tokensFit (p : Pool) : Prop :=
  Z.of_nat (remainingSpace p) <= MaxCap (config p).

(** The raw connections in a queue, leaving out nil entries. *)
Fixpoint ids (q : list conn) : list ConnId :=
  match q with
  | [] => []
  | Some c :: q' => c :: ids q'
  | None :: q' => ids q'
  end.

Definition nonnil (q : list conn) : Prop := Forall (fun c => c <> None) q.

Definition emptyString := String.EmptyString.

(** A configuration with the two capacities given and nothing else. *)
Definition capConfig (initCap maxCap : Z) : Config :=
  mkConfig emptyString emptyString initCap maxCap 0 0.

(** A factory that always succeeds; its [i]-th call makes connection [i]. *)
Definition dialOk (i : nat) : FactoryResult := (Some i, None).

(** [p] with its creation counter incremented. *)
Definition bumped (p : Pool) : Pool :=
  set_createNum (GoInt.incr (createNum p)) p.

(** The calls that acquire a connection. *)
Definition acquires (o : op) : bool :=
  match o with
  | OGet _ | OBlockingGet _ _ _ => true
  | _ => false
  end.

(** Idle connections, borrowed connections and free tokens together. *)
Definition total (s : Sys) : Z :=
  idle (pool (world s)) + Z.of_nat (length (borrowed s))
    + Z.of_nat (remainingSpace (pool (world s))).

(** The idle queue, if there is one, holds no nil entry. *)
Definition queueNonnil (p : Pool) : Prop :=
  match conns p with
  | None => True
  | Some q => nonnil q
  end.

(** A call that gives a connection back gives back a borrowed one. *)
Definition givesBorrowed (o : op) (s : Sys) : Prop :=
  match o with
  | OReturn c _ => exists id, c = Some id /\ In id (borrowed s)
  | OGConnClose g _ => exists id, Conn g = Some id /\ In id (borrowed s)
  | _ => True
  end.

(** A call that reaches [Return]. *)
Definition reachesReturn (o : op) : bool :=
  match o with
  | OReturn _ _ => true
  | OGConnClose g _ => negb (unusable g)
  | _ => false
  end.

(** The connections a factory makes in calls [i], ..., [i + n - 1]. *)
Definition dialled (dial : nat -> FactoryResult) (i n : nat) : list conn :=
  map (fun j => fst (dial j)) (seq i n).

(** The pool [New] makes for [InitCap = 0], [MaxCap = 1], and the systems
    reached from it by [Get] (which makes connection 7), then [Close], then
    [Return] of connection 7. *)
Definition pool01 : Pool := mkPool (Some []) true (capConfig 0 1) 0 0 1.

Definition sysFresh : Sys := mkSys (mkWorld pool01 []) [].

Definition sysBorrowed : Sys :=
  mkSys (mkWorld (mkPool (Some []) true (capConfig 0 1) 0 1 0) []) [7%nat].

Definition sysClosed : Sys :=
  mkSys (mkWorld (mkPool None false (capConfig 0 1) 0 1 0) []) [7%nat].

Definition sysReturned : Sys :=
  mkSys (mkWorld (mkPool None false (capConfig 0 1) 0 1 0) [7%nat]) [].

(** [pool01] after an acquisition whose factory call failed. *)
Definition pool01Failed : Pool := mkPool (Some []) true (capConfig 0 1) 0 1 1.

(** On an open pool: [idleConns] is the length of the idle queue, the queue
    holds no nil entry and fits its channel. *)
Definition idleInStep (p : Pool) : Prop :=
  exists q,
    conns p = Some q /\
    idleConns p = Z.of_nat (length q) /\
    nonnil q /\
    Z.of_nat (length q) <= MaxCap (config p).

(** The test [New] makes of a configuration. *)
Definition invalidCapacity (pc : Config) : bool :=
  (InitCap pc <? 0) || (MaxCap pc <? 0) || (InitCap pc >? MaxCap pc).

(** The system after a list of calls, whatever their outcomes. *)
Fixpoint steps (tr : list op) (s : Sys) : Sys :=
  match tr with
  | [] => s
  | o :: tr' => steps tr' (snd (step o s))
  end.

(** Every call of the list that gives a connection back gives back one that
    is borrowed when the call is made. *)
Fixpoint wellUsed (tr : list op) (s : Sys) : Prop :=
  match tr with
  | [] => True
  | o :: tr' => givesBorrowed o s /\ wellUsed tr' (snd (step o s))
  end.

(** [Return] of each connection of a list, in order; every raw [Close]
    answers nil. *)
Definition returnAll (cs : list ConnId) : list op :=
  map (fun c => OReturn (Some c) None) cs.

(** The free tokens and the creation counter together cover [MaxCap]. *)
Definition tokensCover (p : Pool) : Prop :=
  MaxCap (config p) <= Z.of_nat (remainingSpace p) + createNum p.

(** * Properties *)

(** ** Arithmetic of [int] *)

Module GoIntFacts.

Import GoInt.

Lemma wrap_in_range z : in_range z -> wrap z = z.
Proof.
  unfold in_range, wrap, min_int, max_int, bits. intros H.
  rewrite Z.mod_small; lia.
Qed.

Lemma incr_no_overflow x : min_int <= x < max_int -> incr x = x + 1.
Proof.
  intros H. unfold incr. apply wrap_in_range. unfold in_range. lia.
Qed.

Lemma decr_no_underflow x : min_int < x <= max_int -> decr x = x - 1.
Proof.
  intros H. unfold decr. apply wrap_in_range. unfold in_range. lia.
Qed.

Lemma min_int_neg : min_int < 0.
Proof. reflexivity. Qed.

End GoIntFacts.

(** ** Unfolding calls *)

Ltac unfold_go :=
  cbv beta iota delta
    [bind ret panic block getPool modifyPool fmap after
     RemoteAddr connClose addRemainingSpace removeRemainingSpace sendConn
     wrapConn callFactory takeIdle] in *.

Ltac proj_simpl :=
  cbn [pool closed conns factory config idleConns createNum remainingSpace
       set_conns set_factory set_idleConns set_createNum set_remainingSpace
       world borrowed Conn unusable] in *.

Lemma ids_nonnil_length q : nonnil q -> length (ids q) = length q.
Proof.
  induction 1 as [|c q Hc _ IH]; simpl; [reflexivity|].
  destruct c; [simpl; congruence | contradiction].
Qed.

Lemma nonnil_app q c : nonnil q -> nonnil (q ++ [Some c]).
Proof.
  intros H. apply Forall_app. split; [assumption|].
  constructor; [discriminate | constructor].
Qed.

(** ** Close *)

(** Draining a queue without nil entries into a token channel with room for
    them closes each connection in order and adds one token for each. *)
Lemma drain_spec q : forall p l,
  nonnil q ->
  Z.of_nat (remainingSpace p) + Z.of_nat (length q) <= MaxCap (config p) ->
  drain q (mkWorld p l)
  = (Returns tt,
     mkWorld (set_remainingSpace (remainingSpace p + length q) p) (l ++ ids q)).
Proof.
  induction q as [|c q IH]; intros p l Hnn Hfit; simpl.
  - unfold ret, set_remainingSpace. rewrite Nat.add_0_r, app_nil_r.
    destruct p; reflexivity.
  - inversion Hnn as [|? ? Hc Hq]; subst.
    destruct c as [c|]; [|contradiction].
    change (length (Some c :: q)) with (S (length q)) in Hfit.
    rewrite Nat2Z.inj_succ in Hfit.
    unfold_go. proj_simpl.
    destruct (Z.ltb_spec (Z.of_nat (remainingSpace p)) (MaxCap (config p))); [|lia].
    rewrite IH; [|assumption|proj_simpl; lia].
    proj_simpl.
    rewrite <- app_assoc. simpl app.
    replace (S (remainingSpace p) + length q)%nat
      with (remainingSpace p + S (length q))%nat by lia.
    reflexivity.
Qed.

Lemma Close_open w q :
  conns (pool w) = Some q ->
  Close w = drain q (mkWorld (set_factory false (set_conns None (pool w))) (closed w)).
Proof.
  intros H. unfold Close. unfold_go. rewrite H. reflexivity.
Qed.

Lemma Close_closed w :
  conns (pool w) = None ->
  Close w = (Returns tt, mkWorld (set_factory false (pool w)) (closed w)).
Proof.
  intros H. unfold Close. unfold_go. rewrite H.
  unfold set_conns, set_factory. simpl. rewrite H. reflexivity.
Qed.

Lemma drain_pool q : forall w,
  conns (pool (snd (drain q w))) = conns (pool w) /\
  factory (pool (snd (drain q w))) = factory (pool w) /\
  idleConns (pool (snd (drain q w))) = idleConns (pool w) /\
  createNum (pool (snd (drain q w))) = createNum (pool w) /\
  config (pool (snd (drain q w))) = config (pool w).
Proof.
  induction q as [|c q IH]; intros w; simpl.
  - repeat split.
  - destruct c as [c|]; unfold_go; simpl; [|repeat split].
    destruct (Z.of_nat (remainingSpace (pool w)) <? MaxCap (config (pool w)));
      simpl; [|repeat split].
    match goal with |- context [drain q ?w'] => specialize (IH w') end.
    destruct (drain q _) as [[| |] w'']; simpl in *; exact IH.
Qed.

Lemma Close_conns w : conns (pool (after Close w)) = None.
Proof.
  unfold after. destruct (conns (pool w)) as [q|] eqn:E.
  - rewrite (Close_open _ _ E).
    destruct (drain_pool q
      (mkWorld (set_factory false (set_conns None (pool w))) (closed w)))
      as [H _].
    rewrite H. reflexivity.
  - rewrite (Close_closed _ E). simpl. assumption.
Qed.

Ltac unfold_ops :=
  cbv beta iota delta
    [exec Get BlockingGet Return GConn_Close MarkUnusable Len Idle runCase] in *.

(** No call reopens a closed pool. *)
Lemma exec_keeps_closed o w :
  conns (pool w) = None -> conns (pool (after (exec o) w)) = None.
Proof.
  intros H. destruct o as [fr|ctx pick fr|c cerr| |g cerr| |].
  - unfold_ops; unfold_go. rewrite H. assumption.
  - unfold_ops; unfold_go. rewrite H. assumption.
  - unfold_ops; unfold_go. destruct c; [rewrite H|]; assumption.
  - unfold exec, fmap, after, bind.
    pose proof (Close_conns w) as HC. unfold after in HC.
    destruct (Close w) as [[| |] w']; assumption.
  - unfold_ops; unfold_go. destruct g as [[c|] [|]]; proj_simpl; try assumption.
    + destruct (_ <? _); assumption.
    + rewrite H. assumption.
  - unfold_ops; unfold_go. assumption.
  - unfold_ops; unfold_go. assumption.
Qed.

Lemma run_keeps_closed tr : forall w,
  conns (pool w) = None -> conns (pool (run tr w)) = None.
Proof.
  induction tr as [|o tr IH]; intros w H; simpl; [assumption|].
  apply IH, exec_keeps_closed, H.
Qed.

Lemma Get_closed fr w :
  conns (pool w) = None -> Get fr w = (Returns (inr ErrNil), w).
Proof. intros H. unfold_ops; unfold_go. rewrite H. reflexivity. Qed.

Lemma BlockingGet_closed ctx pick fr w :
  conns (pool w) = None ->
  BlockingGet ctx pick fr w = (Returns (inr ErrNil), w).
Proof. intros H. unfold_ops; unfold_go. rewrite H. reflexivity. Qed.

(** ** Return on a full queue *)

(** C3. [Return] of a non-nil connection on an open pool whose idle queue
    holds [MaxCap] connections (or more) calls the connection's own [Close],
    hands its result to the caller and leaves the pool as it was: the queue,
    the idle count and the number of free tokens are unchanged, so no token
    is released. *)
Theorem Return_full_queue w q c cerr :
  conns (pool w) = Some q ->
  MaxCap (config (pool w)) <= Z.of_nat (length q) ->
  Return (Some c) cerr w
  = (Returns cerr, mkWorld (pool w) (closed w ++ [c])).
Proof.
  intros Hq Hfull. unfold_ops; unfold_go. rewrite Hq.
  destruct (Z.ltb_spec (Z.of_nat (length q)) (MaxCap (config (pool w))));
    [lia | reflexivity].
Qed.

Lemma Return_full_queue_witness :
  Return (Some 5%nat) None
    (mkWorld (mkPool (Some [Some 1%nat]) true (capConfig 1 1) 1 1 0) [])
  = (Returns None,
     mkWorld (mkPool (Some [Some 1%nat]) true (capConfig 1 1) 1 1 0) [5%nat]).
Proof.
  apply (Return_full_queue
           (mkWorld (mkPool (Some [Some 1%nat]) true (capConfig 1 1) 1 1 0) [])
           [Some 1%nat] 5%nat None).
  - reflexivity.
  - simpl. lia.
Defined.

(** ** Acquiring from a closed pool *)

(** C6. After [Close], whatever calls are made next, [Get] and [BlockingGet]
    return the error [ErrNil] ("pool is nil"), hand out no connection and
    leave the world as it is. *)
Theorem acquire_after_Close w tr ctx pick fr :
  let w' := run tr (after Close w) in
  Get fr w' = (Returns (inr ErrNil), w') /\
  BlockingGet ctx pick fr w' = (Returns (inr ErrNil), w').
Proof.
  intros w'.
  assert (H : conns (pool w') = None)
    by (apply run_keeps_closed, Close_conns).
  split; [apply Get_closed | apply BlockingGet_closed]; assumption.
Qed.

(** ** Return of nil *)

(** C7. [Return(nil)] evaluates [conn.RemoteAddr()] on the nil interface
    value while it builds its log entry: the call panics before it reaches
    the [return] of the rejection error.  Nothing is closed and the pool is
    not touched. *)
Theorem Return_nil_panics w cerr :
  Return None cerr w = (Panics, w).
Proof. reflexivity. Qed.

(** ** Close twice *)

(** C9. The first [Close] on an open pool whose queue holds connections (and
    whose token channel has room for them) closes each of them in order,
    adds one token for each, and detaches queue and factory.  A [Close] on
    the world any [Close] leaves returns at once and changes nothing, so
    [Close] followed by [Close] is [Close]. *)
Theorem Close_idempotent :
  (forall w q,
      conns (pool w) = Some q ->
      nonnil q ->
      Z.of_nat (remainingSpace (pool w)) + Z.of_nat (length q)
        <= MaxCap (config (pool w)) ->
      Close w
      = (Returns tt,
         mkWorld (mkPool None false (config (pool w)) (idleConns (pool w))
                    (createNum (pool w))
                    (remainingSpace (pool w) + length q))
                 (closed w ++ ids q))
      /\ length (ids q) = length q) /\
  (forall w, Close (after Close w) = (Returns tt, after Close w)) /\
  (forall w, (Close ;; Close) w = Close w).
Proof.
  assert (Hsecond : forall w, Close (after Close w) = (Returns tt, after Close w)).
  { intros w. pose proof (Close_conns w) as Hc.
    rewrite (Close_closed _ Hc).
    f_equal. unfold after in *.
    destruct (conns (pool w)) as [q|] eqn:E.
    - rewrite (Close_open _ _ E) in *.
      destruct (drain_pool q
        (mkWorld (set_factory false (set_conns None (pool w))) (closed w)))
        as (_ & Hf & _).
      destruct (drain q _) as [r [p l]]. cbn [fst snd] in *. proj_simpl.
      unfold set_factory. destruct p; proj_simpl. subst. reflexivity.
    - rewrite (Close_closed _ E). reflexivity. }
  split; [|split].
  - intros w q Hq Hnn Hfit. split; [|apply ids_nonnil_length, Hnn].
    rewrite (Close_open _ _ Hq), drain_spec by (proj_simpl; assumption).
    reflexivity.
  - exact Hsecond.
  - intros w. unfold bind. specialize (Hsecond w). unfold after in Hsecond.
    destruct (Close w) as [[[]| |] w']; cbn [fst snd] in *;
      [assumption | reflexivity | reflexivity].
Qed.

Lemma Close_idempotent_witness :
  Close (mkWorld (mkPool (Some [Some 3%nat; Some 4%nat]) true (capConfig 2 3) 2 2 1) [])
  = (Returns tt, mkWorld (mkPool None false (capConfig 2 3) 2 2 3) [3%nat; 4%nat]).
Proof.
  apply (proj1 (proj1 Close_idempotent
    (mkWorld (mkPool (Some [Some 3%nat; Some 4%nat]) true (capConfig 2 3) 2 2 1) [])
    [Some 3%nat; Some 4%nat] eq_refl
    ltac:(repeat constructor; discriminate)
    ltac:(simpl; lia))).
Defined.

(** ** New *)

Lemma fillTokens_spec n : forall p l,
  Z.of_nat (remainingSpace p) + Z.of_nat n <= MaxCap (config p) ->
  fillTokens n (mkWorld p l)
  = (Returns tt, mkWorld (set_remainingSpace (remainingSpace p + n) p) l).
Proof.
  induction n as [|n IH]; intros p l Hfit.
  - simpl. unfold ret, set_remainingSpace. rewrite Nat.add_0_r.
    destruct p; reflexivity.
  - rewrite Nat2Z.inj_succ in Hfit.
    cbn [fillTokens]. unfold_go. proj_simpl.
    destruct (Z.ltb_spec (Z.of_nat (remainingSpace p)) (MaxCap (config p)));
      [|lia].
    rewrite IH by (proj_simpl; lia).
    proj_simpl.
    replace (S (remainingSpace p) + n)%nat
      with (remainingSpace p + S n)%nat by lia.
    reflexivity.
Qed.

Lemma fillConns_spec dial n : forall i p l q,
  conns p = Some q ->
  factory p = true ->
  (forall j, (i <= j < i + n)%nat -> snd (dial j) = None) ->
  (n <= remainingSpace p)%nat ->
  Z.of_nat (length q) + Z.of_nat n <= MaxCap (config p) ->
  fillConns n i dial (mkWorld p l)
  = (Returns None,
     mkWorld (mkPool (Some (q ++ dialled dial i n)) true (config p)
                (idleConns p)
                (match n with O => createNum p | S _ => InitCap (config p) end)
                (remainingSpace p - n))
             l).
Proof.
  induction n as [|n IH]; intros i p l q Hq Hf Hdial Htok Hroom.
  - simpl. unfold ret, dialled. simpl. rewrite app_nil_r, Nat.sub_0_r.
    destruct p; proj_simpl; subst; reflexivity.
  - rewrite Nat2Z.inj_succ in Hroom.
    cbn [fillConns]. unfold_go. proj_simpl. rewrite Hf. proj_simpl.
    destruct (remainingSpace p) as [|t] eqn:Et; [lia|].
    rewrite (Hdial i) by lia. proj_simpl. rewrite Hq.
    destruct (Z.ltb_spec (Z.of_nat (length q)) (MaxCap (config p))); [|lia].
    erewrite IH; proj_simpl;
      [ | reflexivity | assumption | intros j Hj; apply Hdial; lia | lia
        | rewrite length_app; simpl length; lia ].
    unfold dialled. cbn [seq map]. rewrite <- app_assoc. cbn [app].
    destruct n; reflexivity.
Qed.

(** With a valid configuration and a factory that succeeds [InitCap] times,
    [New] returns an open pool holding the connections made, with one token
    taken for each. *)
Lemma New_spec pc dial l :
  0 <= InitCap pc <= MaxCap pc ->
  (forall j, (j < Z.to_nat (InitCap pc))%nat -> snd (dial j) = None) ->
  New pc dial l
  = (Returns (inl (mkPool (Some (dialled dial 0 (Z.to_nat (InitCap pc))))
                          true pc (InitCap pc) (InitCap pc)
                          (Z.to_nat (MaxCap pc) - Z.to_nat (InitCap pc)))),
     l).
Proof.
  intros Hcap Hdial. unfold New.
  destruct (Z.ltb_spec (InitCap pc) 0); [lia|].
  destruct (Z.ltb_spec (MaxCap pc) 0); [lia|].
  rewrite Z.gtb_ltb.
  destruct (Z.ltb_spec (MaxCap pc) (InitCap pc)); [lia|].
  cbn [orb]. unfold bind at 1.
  rewrite fillTokens_spec by (proj_simpl; lia).
  erewrite fillConns_spec with (q := []); proj_simpl;
    [ | reflexivity | reflexivity | intros j Hj; apply Hdial; lia
      | lia | simpl length; lia ].
  cbn [app plus].
  destruct (Z.to_nat (InitCap pc)) eqn:E; [|reflexivity].
  replace (InitCap pc) with 0 by lia. reflexivity.
Qed.

(** ** Get on an empty queue *)

(** C5. [Get] on an open pool with an empty idle queue increments
    [createNum] first.  When the new value exceeds [MaxCap] the call returns
    the error "More than MaxCap" and the counter stays incremented.
    Otherwise the factory is called and one token is taken; with a factory
    that succeeds the caller gets the new connection wrapped.  On the pool
    that [New] makes for [InitCap = 0], [MaxCap = 2], two calls of [Get]
    succeed and the third returns "More than MaxCap". *)
Theorem Get_empty_queue :
  (forall w fr,
      conns (pool w) = Some [] ->
      GoInt.incr (createNum (pool w)) > MaxCap (config (pool w)) ->
      Get fr w
      = (Returns (inr ErrMoreThanMaxCap),
         mkWorld (bumped (pool w)) (closed w))) /\
  (forall w c t,
      conns (pool w) = Some [] ->
      factory (pool w) = true ->
      GoInt.incr (createNum (pool w)) <= MaxCap (config (pool w)) ->
      remainingSpace (pool w) = S t ->
      Get (Some c, None) w
      = (Returns (inl (mkGConn (Some c) false)),
         mkWorld (set_remainingSpace t (bumped (pool w))) (closed w))) /\
  (forall c1 c2 fr3,
      exists p,
        New (capConfig 0 2) dialOk [] = (Returns (inl p), []) /\
        let r1 := Get (Some c1, None) (mkWorld p []) in
        let r2 := Get (Some c2, None) (snd r1) in
        let r3 := Get fr3 (snd r2) in
        fst r1 = Returns (inl (mkGConn (Some c1) false)) /\
        fst r2 = Returns (inl (mkGConn (Some c2) false)) /\
        fst r3 = Returns (inr ErrMoreThanMaxCap)).
Proof.
  split; [|split].
  - intros w fr Hq Hgt. unfold_ops; unfold_go. rewrite Hq. proj_simpl.
    rewrite Z.gtb_ltb.
    destruct (Z.ltb_spec (MaxCap (config (pool w)))
                (GoInt.incr (createNum (pool w)))); [reflexivity | lia].
  - intros w c t Hq Hf Hle Ht. unfold_ops; unfold_go. rewrite Hq. proj_simpl.
    rewrite Z.gtb_ltb.
    destruct (Z.ltb_spec (MaxCap (config (pool w)))
                (GoInt.incr (createNum (pool w)))); [lia|].
    rewrite Hf. cbn [fst snd]. proj_simpl. rewrite Ht. reflexivity.
  - intros c1 c2 fr3. eexists. split; [vm_compute; reflexivity|].
    vm_compute. repeat split.
Qed.

Lemma Get_empty_queue_witness :
  Get (None, None) (mkWorld (mkPool (Some []) true (capConfig 0 2) 0 2 0) [])
  = (Returns (inr ErrMoreThanMaxCap),
     mkWorld (mkPool (Some []) true (capConfig 0 2) 0 3 0) []) /\
  Get (Some 7%nat, None)
    (mkWorld (mkPool (Some []) true (capConfig 0 2) 0 1 1) [])
  = (Returns (inl (mkGConn (Some 7%nat) false)),
     mkWorld (mkPool (Some []) true (capConfig 0 2) 0 2 0) []).
Proof.
  split.
  - apply (proj1 Get_empty_queue
             (mkWorld (mkPool (Some []) true (capConfig 0 2) 0 2 0) [])
             (None, None) eq_refl).
    vm_compute. reflexivity.
  - apply (proj1 (proj2 Get_empty_queue)
             (mkWorld (mkPool (Some []) true (capConfig 0 2) 0 1 1) [])
             7%nat O eq_refl eq_refl).
    + vm_compute. discriminate.
    + reflexivity.
Defined.

(** ** The idle count after Close *)

(** C4. [Close] detaches and drains the idle queue but does not touch
    [idleConns].  On the pool that [New] makes for [InitCap = 1],
    [MaxCap = 1], after [Close] has returned [Idle()] is still 1 while
    [Len()] is 0. *)
Theorem Close_keeps_idleConns :
  (forall w, idleConns (pool (after Close w)) = idleConns (pool w)) /\
  (exists p,
      New (capConfig 1 1) dialOk [] = (Returns (inl p), []) /\
      let w := after Close (mkWorld p []) in
      Close (mkWorld p []) = (Returns tt, w) /\
      Idle w = (Returns 1, w) /\
      Len w = (Returns 0, w)).
Proof.
  split.
  - intros w. unfold after. destruct (conns (pool w)) as [q|] eqn:E.
    + rewrite (Close_open _ _ E).
      destruct (drain_pool q
        (mkWorld (set_factory false (set_conns None (pool w))) (closed w)))
        as (_ & _ & H & _).
      rewrite H. reflexivity.
    + rewrite (Close_closed _ E). reflexivity.
  - eexists. split; [vm_compute; reflexivity|].
    vm_compute. repeat split.
Qed.

(** ** A factory that fails *)

Lemma selectCase_ready q p ctx pick k :
  selectCase q p ctx pick = Some k -> In k (ready q p ctx).
Proof.
  unfold selectCase. destruct (ready q p ctx) as [|k0 ks]; [discriminate|].
  intros H.
  assert (E : k = nth (pick mod length (k0 :: ks)) (k0 :: ks) k0) by congruence.
  rewrite E. apply nth_In.
  apply Nat.mod_upper_bound. discriminate.
Qed.

Lemma ready_token q p ctx :
  In CaseToken (ready q p ctx) -> exists t, remainingSpace p = S t.
Proof.
  unfold ready. intros H.
  destruct (remainingSpace p) as [|t]; [|eauto].
  exfalso. destruct q, ctx; simpl in H; intuition discriminate.
Qed.

(** The token case of [BlockingGet] when the factory fails. *)
Lemma runCase_token_failure w q ctx c e :
  factory (pool w) = true ->
  (0 < remainingSpace (pool w))%nat ->
  tokensFit (pool w) ->
  runCase CaseToken (factory (pool w)) q ctx (c, Some e) w
  = (Returns (inr e), mkWorld (bumped (pool w)) (closed w)).
Proof.
  unfold tokensFit. intros Hf Ht Hfit. rewrite Hf.
  unfold_ops; unfold_go. proj_simpl.
  destruct (remainingSpace (pool w)) as [|t] eqn:Et; [lia|].
  cbn [fst snd]. proj_simpl.
  destruct (Z.ltb_spec (Z.of_nat t) (MaxCap (config (pool w)))); [|lia].
  unfold bumped. destruct w as [p l]; destruct p; proj_simpl.
  subst. reflexivity.
Qed.

(** C2, as the code has it.  When the factory fails and the call returns its
    error, the token is back in [remainingSpace] and the pool is as before
    the call except for [createNum], which stays incremented.  This holds
    for [BlockingGet] whenever the select takes the token case, and for
    [Get] on an empty queue when the counter permits the creation and the
    factory hands back a non-nil connection beside its error. *)
Theorem failed_factory_restores_token :
  (forall w q ctx pick c e,
      conns (pool w) = Some q ->
      factory (pool w) = true ->
      tokensFit (pool w) ->
      selectCase q (pool w) ctx pick = Some CaseToken ->
      BlockingGet ctx pick (c, Some e) w
      = (Returns (inr e), mkWorld (bumped (pool w)) (closed w))) /\
  (forall w c e,
      conns (pool w) = Some [] ->
      factory (pool w) = true ->
      tokensFit (pool w) ->
      (0 < remainingSpace (pool w))%nat ->
      GoInt.incr (createNum (pool w)) <= MaxCap (config (pool w)) ->
      Get (Some c, Some e) w
      = (Returns (inr e), mkWorld (bumped (pool w)) (closed w))).
Proof.
  split.
  - intros w q ctx pick c e Hq Hf Hfit Hsel.
    destruct (ready_token _ _ _ (selectCase_ready _ _ _ _ _ Hsel)) as [t Ht].
    unfold BlockingGet, bind, getPool. rewrite Hq, Hsel.
    apply runCase_token_failure; [assumption | lia | assumption].
  - unfold tokensFit. intros w c e Hq Hf Hfit Ht Hle.
    unfold_ops; unfold_go. rewrite Hq. proj_simpl.
    rewrite Z.gtb_ltb.
    destruct (Z.ltb_spec (MaxCap (config (pool w)))
                (GoInt.incr (createNum (pool w)))); [lia|].
    rewrite Hf. cbn [fst snd]. proj_simpl.
    destruct (remainingSpace (pool w)) as [|t] eqn:Et; [lia|].
    proj_simpl.
    destruct (Z.ltb_spec (Z.of_nat t) (MaxCap (config (pool w)))); [|lia].
    unfold bumped. destruct w as [p l]; destruct p; proj_simpl.
    subst. reflexivity.
Qed.

Lemma failed_factory_restores_token_witness :
  BlockingGet None 0 (None, Some (ErrExternal 1))
    (mkWorld (mkPool (Some []) true (capConfig 0 1) 0 0 1) [])
  = (Returns (inr (ErrExternal 1)),
     mkWorld (mkPool (Some []) true (capConfig 0 1) 0 1 1) []) /\
  Get (Some 3%nat, Some (ErrExternal 1))
    (mkWorld (mkPool (Some []) true (capConfig 0 1) 0 0 1) [])
  = (Returns (inr (ErrExternal 1)),
     mkWorld (mkPool (Some []) true (capConfig 0 1) 0 1 1) []).
Proof.
  split.
  - apply (proj1 failed_factory_restores_token
             (mkWorld (mkPool (Some []) true (capConfig 0 1) 0 0 1) [])
             [] None O None (ErrExternal 1) eq_refl eq_refl).
    + unfold tokensFit. simpl. lia.
    + reflexivity.
  - apply (proj2 failed_factory_restores_token
             (mkWorld (mkPool (Some []) true (capConfig 0 1) 0 0 1) [])
             3%nat (ErrExternal 1) eq_refl eq_refl).
    + unfold tokensFit. simpl. lia.
    + simpl. lia.
    + vm_compute. discriminate.
Defined.

(** C2, as stated, fails.  On the pool [New] makes for [InitCap = 0],
    [MaxCap = 1], a failing factory makes [BlockingGet] and [Get] return the
    factory's error and leave a pool that differs from the one before the
    call: [createNum] is 1 where it was 0. *)
Lemma failed_factory_keeps_createNum :
  New (capConfig 0 1) dialOk [] = (Returns (inl pool01), []) /\
  BlockingGet None 0 (None, Some (ErrExternal 1)) (mkWorld pool01 [])
  = (Returns (inr (ErrExternal 1)), mkWorld pool01Failed []) /\
  Get (Some 3%nat, Some (ErrExternal 1)) (mkWorld pool01 [])
  = (Returns (inr (ErrExternal 1)), mkWorld pool01Failed []) /\
  createNum pool01 = 0 /\
  createNum pool01Failed = 1 /\
  pool01Failed <> pool01.
Proof.
  repeat split; try (vm_compute; reflexivity). discriminate.
Qed.

(** ** The token case of BlockingGet *)

Lemma BlockingGet_token_success w q ctx pick c t :
  conns (pool w) = Some q ->
  factory (pool w) = true ->
  remainingSpace (pool w) = S t ->
  selectCase q (pool w) ctx pick = Some CaseToken ->
  BlockingGet ctx pick (Some c, None) w
  = (Returns (inl (mkGConn (Some c) false)),
     mkWorld (set_remainingSpace t (bumped (pool w))) (closed w)).
Proof.
  intros Hq Hf Ht Hsel.
  unfold BlockingGet, bind, getPool. rewrite Hq, Hsel, Hf.
  unfold_ops; unfold_go. proj_simpl. rewrite Ht. reflexivity.
Qed.

Lemma selectCase_token_possible q p t :
  remainingSpace p = S t ->
  exists pick, selectCase q p None pick = Some CaseToken.
Proof.
  intros Ht. unfold selectCase, ready. rewrite Ht.
  destruct q; [exists 0%nat | exists 1%nat]; reflexivity.
Qed.

Lemma selectCase_only_token p t pick :
  remainingSpace p = S t ->
  selectCase [] p None pick = Some CaseToken.
Proof.
  intros Ht. unfold selectCase, ready. rewrite Ht. cbn [app length].
  rewrite Nat.mod_1_r. reflexivity.
Qed.

(** ** Closing an unusable wrapper *)

Lemma accounted_borrowed_room s c :
  accounted s -> In c (borrowed s) ->
  Z.of_nat (remainingSpace (pool (world s))) < MaxCap (config (pool (world s)))
  /\ idle (pool (world s)) < MaxCap (config (pool (world s))).
Proof.
  unfold accounted, idle. intros Hacc Hin.
  destruct (borrowed s) as [|b bs]; [contradiction|].
  cbn [length] in Hacc. rewrite Nat2Z.inj_succ in Hacc.
  destruct (conns (pool (world s))); lia.
Qed.

(** C8. For a wrapper around a borrowed connection [c], [MarkUnusable]
    followed by [Close] calls [c]'s own [Close], returns its result and adds
    one token to [remainingSpace]; the idle queue and [idleConns] are
    untouched.  With that token, on an open pool, [BlockingGet] can take the
    token case and hand out a newly made connection.  A wrapper that is not
    marked unusable passes its connection to [Return]. *)
Theorem unusable_Close_releases_token :
  (forall s g c cerr,
      accounted s ->
      Conn g = Some c ->
      In c (borrowed s) ->
      let w := world s in
      let w' := mkWorld (set_remainingSpace (S (remainingSpace (pool w))) (pool w))
                        (closed w ++ [c]) in
      (g' <- MarkUnusable g ;; GConn_Close g' cerr) w = (Returns cerr, w') /\
      (forall q c',
          conns (pool w) = Some q ->
          factory (pool w) = true ->
          exists pick,
            BlockingGet None pick (Some c', None) w'
            = (Returns (inl (mkGConn (Some c') false)),
               mkWorld (bumped (pool w)) (closed w ++ [c])))) /\
  (forall w g cerr,
      unusable g = false ->
      GConn_Close g cerr w = Return (Conn g) cerr w).
Proof.
  split.
  - intros s g c cerr Hacc Hg Hin w w'.
    destruct (accounted_borrowed_room _ _ Hacc Hin) as [Hroom _].
    fold w in Hroom. split.
    + unfold_ops; unfold_go. rewrite Hg. proj_simpl.
      destruct (Z.ltb_spec (Z.of_nat (remainingSpace (pool w)))
                  (MaxCap (config (pool w)))); [reflexivity | lia].
    + intros q c' Hq Hf.
      destruct (selectCase_token_possible q (pool w')
                  (remainingSpace (pool w)) eq_refl) as [pick Hsel].
      exists pick.
      rewrite (BlockingGet_token_success w' q None pick c'
                 (remainingSpace (pool w)) Hq Hf eq_refl Hsel).
      subst w'. proj_simpl. unfold bumped. proj_simpl.
      destruct (pool w); reflexivity.
  - intros w [[c|] u] cerr Hu; cbn [unusable] in Hu; subst u; reflexivity.
Qed.

Lemma unusable_Close_releases_token_witness :
  (g' <- MarkUnusable (mkGConn (Some 7%nat) false) ;; GConn_Close g' None)
    (mkWorld (mkPool (Some []) true (capConfig 0 1) 0 1 0) [])
  = (Returns None, mkWorld (mkPool (Some []) true (capConfig 0 1) 0 1 1) [7%nat])
  /\
  GConn_Close (mkGConn (Some 7%nat) false) None
    (mkWorld (mkPool (Some []) true (capConfig 0 1) 0 1 0) [])
  = Return (Some 7%nat) None
      (mkWorld (mkPool (Some []) true (capConfig 0 1) 0 1 0) []).
Proof.
  split.
  - apply (proj1 unusable_Close_releases_token
             (mkSys (mkWorld (mkPool (Some []) true (capConfig 0 1) 0 1 0) [])
                    [7%nat])
             (mkGConn (Some 7%nat) false) 7%nat None).
    + reflexivity.
    + reflexivity.
    + simpl. left. reflexivity.
  - apply (proj2 unusable_Close_releases_token
             (mkWorld (mkPool (Some []) true (capConfig 0 1) 0 1 0) [])
             (mkGConn (Some 7%nat) false) None); reflexivity.
Defined.

(** ** The creation counter *)

Ltac break_match :=
  match goal with
  | |- context [match ?x with _ => _ end] =>
      lazymatch x with
      | context [match _ with _ => _ end] => fail
      | _ => destruct x eqn:?
      end
  end.

Ltac crush_call :=
  unfold_ops; unfold_go; proj_simpl;
  repeat (break_match; cbn [fst snd] in *; proj_simpl);
  auto.

Lemma Close_frame w :
  config (pool (after Close w)) = config (pool w) /\
  createNum (pool (after Close w)) = createNum (pool w).
Proof.
  unfold after. destruct (conns (pool w)) as [q|] eqn:E.
  - rewrite (Close_open _ _ E).
    destruct (drain_pool q
      (mkWorld (set_factory false (set_conns None (pool w))) (closed w)))
      as (_ & _ & _ & Hn & Hc).
    rewrite Hn, Hc. split; reflexivity.
  - rewrite (Close_closed _ E). split; reflexivity.
Qed.

(** Every call leaves the configuration alone, and leaves [createNum] alone
    or, if it is an acquisition, increments it. *)
Lemma exec_frame o w :
  config (pool (after (exec o) w)) = config (pool w) /\
  (createNum (pool (after (exec o) w)) = createNum (pool w) \/
   acquires o = true /\
   createNum (pool (after (exec o) w)) = GoInt.incr (createNum (pool w))).
Proof.
  destruct o as [fr|ctx pick fr|c cerr| |g cerr| |]; cbn [acquires].
  - crush_call.
  - unfold exec, BlockingGet. unfold_go. proj_simpl.
    destruct (conns (pool w)) as [q|]; [|auto].
    destruct (selectCase q (pool w) ctx pick) as [[| |]|]; crush_call.
  - crush_call.
  - destruct (Close_frame w) as [Hc Hn]. unfold exec, fmap, bind, after in *.
    destruct (Close w) as [[| |] w']; cbn [fst snd] in *; auto.
  - crush_call.
  - crush_call.
  - crush_call.
Qed.

Lemma run_createNum tr : forall w,
  GoInt.min_int <= createNum (pool w) ->
  createNum (pool w) + Z.of_nat (length tr) <= GoInt.max_int ->
  config (pool (run tr w)) = config (pool w) /\
  createNum (pool w) <= createNum (pool (run tr w))
    <= createNum (pool w) + Z.of_nat (length tr).
Proof.
  induction tr as [|o tr IH]; intros w Hmin Hmax; cbn [run].
  - cbn [length] in *. split; [reflexivity | lia].
  - cbn [length] in Hmax |- *. rewrite Nat2Z.inj_succ in *.
    destruct (exec_frame o w) as [Hc [Hn | [_ Hn]]].
    + destruct (IH (after (exec o) w)) as [Hc' Hn']; [lia | lia |].
      rewrite Hc', Hc. split; [reflexivity | lia].
    + rewrite GoIntFacts.incr_no_overflow in Hn by lia.
      destruct (IH (after (exec o) w)) as [Hc' Hn']; [lia | lia |].
      rewrite Hc', Hc. split; [reflexivity | lia].
Qed.

(** C10.  No call lowers [createNum]: a call leaves it alone or, if it is
    [Get] or [BlockingGet], increments it; [Return], [Close] and a wrapper's
    [Close] leave it alone.  So once [createNum] is at least [MaxCap], after
    any further calls (as long as the 64-bit counter has not run over) a
    [Get] that finds the idle queue empty returns "More than MaxCap",
    however many tokens are free; [BlockingGet] consults no counter and
    succeeds on a free token.  On the pool made for [InitCap = 0],
    [MaxCap = 1]: after [Get], [MarkUnusable] and [Close] of the wrapper the
    token is free again, [Get] fails and [BlockingGet] succeeds. *)
Theorem createNum_never_decremented :
  (forall o w,
      createNum (pool (after (exec o) w)) = createNum (pool w) \/
      acquires o = true /\
      createNum (pool (after (exec o) w)) = GoInt.incr (createNum (pool w))) /\
  (forall tr w fr,
      0 <= MaxCap (config (pool w)) <= createNum (pool w) ->
      createNum (pool w) + Z.of_nat (length tr) < GoInt.max_int ->
      let w' := run tr w in
      MaxCap (config (pool w')) <= createNum (pool w') /\
      (conns (pool w') = Some [] ->
       Get fr w'
       = (Returns (inr ErrMoreThanMaxCap), mkWorld (bumped (pool w')) (closed w')))) /\
  (forall w pick c t,
      conns (pool w) = Some [] ->
      factory (pool w) = true ->
      remainingSpace (pool w) = S t ->
      BlockingGet None pick (Some c, None) w
      = (Returns (inl (mkGConn (Some c) false)),
         mkWorld (set_remainingSpace t (bumped (pool w))) (closed w))) /\
  (forall c1 c2 fr,
      exists p,
        New (capConfig 0 1) dialOk [] = (Returns (inl p), []) /\
        let g := mkGConn (Some c1) false in
        let r1 := Get (Some c1, None) (mkWorld p []) in
        let r2 := (g' <- MarkUnusable g ;; GConn_Close g' None) (snd r1) in
        let r3 := Get fr (snd r2) in
        let r4 := BlockingGet None 0 (Some c2, None) (snd r3) in
        fst r1 = Returns (inl g) /\
        fst r2 = Returns None /\
        remainingSpace (pool (snd r2)) = 1%nat /\
        fst r3 = Returns (inr ErrMoreThanMaxCap) /\
        fst r4 = Returns (inl (mkGConn (Some c2) false))).
Proof.
  split; [|split; [|split]].
  - intros o w. apply exec_frame.
  - intros tr w fr Hcap Hmax w'.
    pose proof GoIntFacts.min_int_neg as Hneg.
    destruct (run_createNum tr w) as [Hc Hn]; [lia | lia |].
    fold w' in Hc, Hn. rewrite Hc.
    split; [lia|].
    intros Hq. unfold_ops; unfold_go. rewrite Hq. proj_simpl.
    rewrite GoIntFacts.incr_no_overflow by lia.
    rewrite Z.gtb_ltb, Hc.
    destruct (Z.ltb_spec (MaxCap (config (pool w))) (createNum (pool w') + 1));
      [|lia].
    unfold bumped. rewrite GoIntFacts.incr_no_overflow by lia. reflexivity.
  - intros w pick c t Hq Hf Ht.
    apply (BlockingGet_token_success w [] None pick c t Hq Hf Ht).
    apply (selectCase_only_token _ t); assumption.
  - intros c1 c2 fr. eexists.
    split; [vm_compute; reflexivity|].
    vm_compute. repeat split.
Qed.

Lemma createNum_never_decremented_witness :
  Get (Some 9%nat, None)
    (run [OGConnClose (mkGConn (Some 7%nat) true) None]
       (mkWorld (mkPool (Some []) true (capConfig 0 1) 0 1 0) []))
  = (Returns (inr ErrMoreThanMaxCap),
     mkWorld (mkPool (Some []) true (capConfig 0 1) 0 2 1) [7%nat]) /\
  BlockingGet None 0 (Some 9%nat, None)
    (mkWorld (mkPool (Some []) true (capConfig 0 1) 0 2 1) [7%nat])
  = (Returns (inl (mkGConn (Some 9%nat) false)),
     mkWorld (mkPool (Some []) true (capConfig 0 1) 0 3 0) [7%nat]).
Proof.
  split.
  - apply (proj2 (proj1 (proj2 createNum_never_decremented)
             [OGConnClose (mkGConn (Some 7%nat) true) None]
             (mkWorld (mkPool (Some []) true (capConfig 0 1) 0 1 0) [])
             (Some 9%nat, None)
             ltac:(simpl; lia)
             ltac:(vm_compute; reflexivity))).
    reflexivity.
  - apply (proj1 (proj2 (proj2 createNum_never_decremented))
             (mkWorld (mkPool (Some []) true (capConfig 0 1) 0 2 1) [7%nat])
             0%nat 9%nat 0%nat eq_refl eq_refl eq_refl).
Defined.

(** ** The accounting of connections and tokens *)

Ltac break_in H :=
  match type of H with
  | context [match ?x with _ => _ end] =>
      lazymatch x with
      | context [match _ with _ => _ end] => fail
      | _ => destruct x eqn:?
      end
  end.

Ltac crush_in H :=
  unfold_ops; unfold_go; proj_simpl;
  repeat (break_in H; cbn [fst snd] in *; proj_simpl);
  try discriminate H.

Ltac use_eqs :=
  repeat match goal with
         | H : conns _ = _ |- _ => rewrite H in *; clear H
         | H : remainingSpace _ = _ |- _ => rewrite H in *; clear H
         end;
  cbn [length] in *.

(** On an open pool every call but [Close] keeps [idleConns] equal to the
    length of the idle queue, so that [0 <= Idle() <= Len() <= MaxCap] there
    ([MaxCap] being an [int]). *)
Lemma exec_keeps_idleInStep o w r w' :
  o <> OClose ->
  MaxCap (config (pool w)) <= GoInt.max_int ->
  idleInStep (pool w) ->
  exec o w = (Returns r, w') ->
  idleInStep (pool w') /\ config (pool w') = config (pool w).
Proof.
  intros Hne Hmax (q & Hq & Hidle & Hnn & Hfit) H.
  pose proof GoIntFacts.min_int_neg as Hneg.
  unfold idleInStep.
  destruct w as [p l]. proj_simpl.
  assert (Hpop : forall c rest, q = Some c :: rest ->
            GoInt.decr (idleConns p) = Z.of_nat (length rest)).
  { intros c rest ->. cbn [length] in *.
    rewrite GoIntFacts.decr_no_underflow; lia. }
  assert (Hpush : forall c, Z.of_nat (length q) < MaxCap (config p) ->
            GoInt.incr (idleConns p) = Z.of_nat (length (q ++ [Some c]))).
  { intros c Hroom. rewrite length_app. cbn [length].
    rewrite GoIntFacts.incr_no_overflow; lia. }
  destruct o as [fr|ctx pick fr|c cerr| |g cerr| |]; [| | | contradiction | | |];
    unfold exec in H; unfold_ops; unfold_go; proj_simpl; rewrite ?Hq in H.
  - destruct q as [|[c|] rest];
      crush_in H; injection H as <- <-; proj_simpl; rewrite ?Hq;
      inversion Hnn; subst; try contradiction;
      (split; [|reflexivity]); eexists; (split; [reflexivity|]);
      cbn [length] in *; repeat split; eauto; lia.
  - destruct (selectCase q p ctx pick) as [[| |]|]; [| | |discriminate];
      destruct q as [|[c|] rest];
      crush_in H; injection H as <- <-; proj_simpl; rewrite ?Hq;
      inversion Hnn; subst; try contradiction;
      (split; [|reflexivity]); eexists; (split; [reflexivity|]);
      cbn [length] in *; repeat split; eauto; lia.
  - destruct c as [c|]; [|discriminate]. proj_simpl. rewrite ?Hq in H.
    destruct (Z.ltb_spec (Z.of_nat (length q)) (MaxCap (config p)));
      injection H as <- <-; proj_simpl; rewrite ?Hq;
      (split; [|reflexivity]); eexists; (split; [reflexivity|]).
    + repeat split; [apply Hpush; assumption | apply nonnil_app; assumption |].
      rewrite length_app. cbn [length]. lia.
    + repeat split; assumption.
  - destruct g as [[c|] [|]]; proj_simpl; try discriminate.
    + destruct (Z.of_nat (remainingSpace p) <? MaxCap (config p));
        [|discriminate].
      injection H as <- <-. proj_simpl. rewrite Hq.
      split; [|reflexivity]. eexists. repeat split; eauto.
    + proj_simpl. rewrite ?Hq in H.
      destruct (Z.ltb_spec (Z.of_nat (length q)) (MaxCap (config p)));
        injection H as <- <-; proj_simpl; rewrite ?Hq;
        (split; [|reflexivity]); eexists; (split; [reflexivity|]).
      * repeat split; [apply Hpush; assumption | apply nonnil_app; assumption |].
        rewrite length_app. cbn [length]. lia.
      * repeat split; assumption.
  - injection H as <- <-. proj_simpl. rewrite Hq.
    split; [|reflexivity]. eexists. repeat split; eauto.
  - injection H as <- <-. proj_simpl. rewrite Hq.
    split; [|reflexivity]. eexists. repeat split; eauto.
Qed.

Lemma New_idleInStep pc dial l :
  0 <= InitCap pc <= MaxCap pc ->
  (forall j, (j < Z.to_nat (InitCap pc))%nat ->
             snd (dial j) = None /\ fst (dial j) <> None) ->
  exists p, New pc dial l = (Returns (inl p), l) /\ idleInStep p.
Proof.
  intros Hcap Hdial. eexists. split.
  - apply New_spec; [assumption|]. intros j Hj. apply Hdial, Hj.
  - eexists. split; [reflexivity|]. proj_simpl.
    unfold dialled. rewrite length_map, length_seq.
    repeat split; try lia.
    apply Forall_forall. intros c Hc.
    apply in_map_iff in Hc. destruct Hc as (j & <- & Hj).
    apply in_seq in Hj. apply Hdial. lia.
Qed.

Lemma idleInStep_ordered p :
  idleInStep p ->
  0 <= idleConns p <= idle p /\ idle p <= MaxCap (config p).
Proof.
  intros (q & Hq & Hidle & _ & Hfit). unfold idle. rewrite Hq. lia.
Qed.

Lemma remove1_length c l :
  In c l -> S (length (remove1 c l)) = length l.
Proof.
  induction l as [|x l IH]; intros Hin; [contradiction|].
  cbn [remove1]. destruct (Nat.eqb_spec c x) as [->|Hne]; [reflexivity|].
  destruct Hin as [->|Hin]; [contradiction|].
  cbn [length]. rewrite IH by assumption. reflexivity.
Qed.

Ltac start_step H r0 w' E :=
  unfold step in H;
  match type of H with
  | context [exec ?o ?w] => destruct (exec o w) as [r0 w'] eqn:E
  end;
  injection H as H ?; subst.

Lemma step_Get_accounted s fr r s' :
  accounted s -> queueNonnil (pool (world s)) ->
  step (OGet fr) s = (Returns r, s') ->
  accounted s' /\ queueNonnil (pool (world s')).
Proof.
  unfold accounted, queueNonnil, idle. intros Hacc Hnn H.
  start_step H r0 w' E. destruct s as [[p l] b].
  crush_in E; injection E as <- <-; unfold lend; proj_simpl; use_eqs;
    try (split; [lia | exact I || assumption]).
  - inversion Hnn; subst. split; [lia | assumption].
  - inversion Hnn; contradiction.
Qed.

Lemma step_BlockingGet_accounted s ctx pick fr r s' :
  accounted s -> queueNonnil (pool (world s)) ->
  step (OBlockingGet ctx pick fr) s = (Returns r, s') ->
  accounted s' /\ queueNonnil (pool (world s')).
Proof.
  unfold accounted, queueNonnil, idle. intros Hacc Hnn H.
  start_step H r0 w' E. destruct s as [[p l] b].
  unfold exec, BlockingGet in E. unfold_go. proj_simpl.
  destruct (conns p) as [q|] eqn:Eq.
  - destruct (selectCase q p ctx pick) as [[| |]|];
      crush_in E; try rewrite Eq in *; injection E as <- <-; unfold lend;
      proj_simpl; use_eqs;
      try (split; [lia | exact I || assumption]).
    + inversion Hnn; subst. split; [lia | assumption].
    + inversion Hnn; contradiction.
  - injection E as <- <-. unfold lend. proj_simpl. rewrite Eq.
    split; [assumption | exact I].
Qed.

Lemma Return_borrowed_open w q c cerr :
  conns (pool w) = Some q ->
  Z.of_nat (length q) < MaxCap (config (pool w)) ->
  Return (Some c) cerr w
  = (Returns None,
     mkWorld (set_idleConns (GoInt.incr (idleConns (pool w)))
                (set_conns (Some (q ++ [Some c])) (pool w)))
             (closed w)).
Proof.
  intros Hq Hroom. unfold_ops; unfold_go. rewrite Hq.
  destruct (Z.ltb_spec (Z.of_nat (length q)) (MaxCap (config (pool w))));
    [reflexivity | lia].
Qed.

Lemma Return_closed_pool w c cerr :
  conns (pool w) = None ->
  Return (Some c) cerr w = (Returns cerr, mkWorld (pool w) (closed w ++ [c])).
Proof.
  intros Hq. unfold_ops; unfold_go. rewrite Hq. reflexivity.
Qed.

Lemma step_Return_accounted s c cerr r s' :
  accounted s -> queueNonnil (pool (world s)) ->
  givesBorrowed (OReturn c cerr) s ->
  closedPool (pool (world s)) = false ->
  step (OReturn c cerr) s = (Returns r, s') ->
  accounted s' /\ queueNonnil (pool (world s')).
Proof.
  intros Hacc Hnn (id & -> & Hin) Hopen H.
  destruct (accounted_borrowed_room _ _ Hacc Hin) as [_ Hroom].
  unfold accounted, queueNonnil, idle, closedPool in *.
  destruct (conns (pool (world s))) as [q|] eqn:Eq; [|discriminate].
  unfold step, exec, fmap, bind in H.
  rewrite (Return_borrowed_open _ _ _ _ Eq Hroom) in H.
  injection H as <- <-. unfold giveBack. proj_simpl.
  pose proof (remove1_length _ _ Hin).
  rewrite length_app. cbn [length]. split; [lia|].
  apply nonnil_app. assumption.
Qed.

Lemma GConn_Close_unusable w c cerr :
  Z.of_nat (remainingSpace (pool w)) < MaxCap (config (pool w)) ->
  GConn_Close (mkGConn (Some c) true) cerr w
  = (Returns cerr,
     mkWorld (set_remainingSpace (S (remainingSpace (pool w))) (pool w))
             (closed w ++ [c])).
Proof.
  intros Hroom. unfold_ops; unfold_go. proj_simpl.
  destruct (Z.ltb_spec (Z.of_nat (remainingSpace (pool w)))
              (MaxCap (config (pool w)))); [reflexivity | lia].
Qed.

Lemma step_GConn_Close_accounted s g cerr r s' :
  accounted s -> queueNonnil (pool (world s)) ->
  givesBorrowed (OGConnClose g cerr) s ->
  closedPool (pool (world s)) && negb (unusable g) = false ->
  step (OGConnClose g cerr) s = (Returns r, s') ->
  accounted s' /\ queueNonnil (pool (world s')).
Proof.
  intros Hacc Hnn (id & Hg & Hin) Hopen H.
  destruct g as [c [|]]; cbn [Conn unusable negb] in *; subst c.
  - destruct (accounted_borrowed_room _ _ Hacc Hin) as [Hroom _].
    unfold step, exec, fmap, bind in H.
    rewrite (GConn_Close_unusable _ _ _ Hroom) in H.
    injection H as <- <-. unfold giveBack. proj_simpl.
    pose proof (remove1_length _ _ Hin).
    unfold accounted, queueNonnil, idle in *. proj_simpl.
    split; [lia | assumption].
  - rewrite andb_true_r in Hopen.
    apply (step_Return_accounted s (Some id) cerr r s');
      [ assumption | assumption
      | exists id; split; [reflexivity | assumption]
      | assumption | exact H ].
Qed.

Lemma step_Close_accounted s r s' :
  accounted s -> queueNonnil (pool (world s)) ->
  step OClose s = (Returns r, s') ->
  accounted s' /\ queueNonnil (pool (world s')).
Proof.
  unfold accounted, queueNonnil, idle. intros Hacc Hnn H.
  unfold step, exec, fmap, bind in H.
  destruct (conns (pool (world s))) as [q|] eqn:Eq.
  - rewrite (Close_open _ _ Eq), drain_spec in H
      by (proj_simpl; solve [assumption | lia]).
    injection H as <- <-. proj_simpl. split; [lia | exact I].
  - rewrite (Close_closed _ Eq) in H.
    injection H as <- <-. proj_simpl. rewrite Eq. split; [lia | exact I].
Qed.

(** C1, as the code has it.  After [New] the idle connections, the borrowed
    connections and the free tokens add up to [MaxCap].  Every call that
    returns keeps the sum, provided that what is given back (to [Return] or
    through a wrapper's [Close]) is a borrowed connection and that [Return]
    is not reached on a closed pool.  [Return] of a borrowed connection on a
    closed pool closes the connection and releases no token: the sum drops
    by one. *)
Theorem accounting_preserved :
  (forall pc dial l,
      0 <= InitCap pc <= MaxCap pc ->
      (forall j, (j < Z.to_nat (InitCap pc))%nat ->
                 snd (dial j) = None /\ fst (dial j) <> None) ->
      exists p,
        New pc dial l = (Returns (inl p), l) /\
        accounted (mkSys (mkWorld p l) []) /\
        queueNonnil p) /\
  (forall o s r s',
      accounted s ->
      queueNonnil (pool (world s)) ->
      givesBorrowed o s ->
      closedPool (pool (world s)) && reachesReturn o = false ->
      step o s = (Returns r, s') ->
      accounted s' /\ queueNonnil (pool (world s'))) /\
  (forall s c cerr,
      closedPool (pool (world s)) = true ->
      In c (borrowed s) ->
      exists s',
        step (OReturn (Some c) cerr) s = (Returns (RErr cerr), s') /\
        total s' = total s - 1 /\
        config (pool (world s')) = config (pool (world s))).
Proof.
  split; [|split].
  - intros pc dial l Hcap Hdial. eexists. split; [|split].
    + apply New_spec; [assumption|]. intros j Hj. apply Hdial, Hj.
    + unfold accounted, idle, dialled. proj_simpl.
      rewrite length_map, length_seq. cbn [length]. lia.
    + unfold queueNonnil, nonnil, dialled. proj_simpl.
      apply Forall_forall. intros c Hc.
      apply in_map_iff in Hc. destruct Hc as (j & <- & Hj).
      apply in_seq in Hj. apply Hdial. lia.
  - intros o s r s' Hacc Hnn Hgive Hopen H.
    destruct o as [fr|ctx pick fr|c cerr| |g cerr| |];
      cbn [reachesReturn] in Hopen.
    + exact (step_Get_accounted _ _ _ _ Hacc Hnn H).
    + exact (step_BlockingGet_accounted _ _ _ _ _ _ Hacc Hnn H).
    + rewrite andb_true_r in Hopen.
      exact (step_Return_accounted _ _ _ _ _ Hacc Hnn Hgive Hopen H).
    + exact (step_Close_accounted _ _ _ Hacc Hnn H).
    + exact (step_GConn_Close_accounted _ _ _ _ _ Hacc Hnn Hgive Hopen H).
    + unfold step, exec, fmap, bind, Len, getPool, ret in H.
      injection H as <- <-. split; assumption.
    + unfold step, exec, fmap, bind, Idle, getPool, ret in H.
      injection H as <- <-. split; assumption.
  - intros s c cerr Hclosed Hin. unfold closedPool in Hclosed.
    destruct (conns (pool (world s))) as [q|] eqn:Eq; [discriminate|].
    eexists. split; [|split].
    + unfold step, exec, fmap, bind.
      rewrite (Return_closed_pool _ _ _ Eq). reflexivity.
    + unfold total, idle, giveBack. proj_simpl. rewrite Eq.
      pose proof (remove1_length _ _ Hin). lia.
    + reflexivity.
Qed.

Lemma accounting_preserved_witness :
  (exists p,
      New (capConfig 1 2) dialOk [] = (Returns (inl p), []) /\
      accounted (mkSys (mkWorld p []) []) /\ queueNonnil p) /\
  (accounted (mkSys (mkWorld (mkPool (Some [Some 7%nat]) true (capConfig 0 1) 1 1 0) []) [])
   /\ queueNonnil (mkPool (Some [Some 7%nat]) true (capConfig 0 1) 1 1 0)) /\
  (exists s',
      step (OReturn (Some 7%nat) None) sysClosed = (Returns (RErr None), s') /\
      total s' = total sysClosed - 1 /\
      config (pool (world s')) = config (pool (world sysClosed))).
Proof.
  split; [|split].
  - apply (proj1 accounting_preserved (capConfig 1 2) dialOk []).
    + simpl. lia.
    + intros j Hj. split; discriminate || reflexivity.
  - apply (proj1 (proj2 accounting_preserved)
             (OReturn (Some 7%nat) None) sysBorrowed (RErr None)
             (mkSys (mkWorld (mkPool (Some [Some 7%nat]) true (capConfig 0 1) 1 1 0) []) [])).
    + reflexivity.
    + constructor.
    + exists 7%nat. split; [reflexivity | left; reflexivity].
    + reflexivity.
    + vm_compute. reflexivity.
  - apply (proj2 (proj2 accounting_preserved) sysClosed 7%nat None).
    + reflexivity.
    + left. reflexivity.
Defined.

(** C1, as stated, fails.  From the pool [New] makes for [InitCap = 0],
    [MaxCap = 1]: [Get] lends connection 7, [Close] closes the pool, and the
    sum is still 1.  [Return] of connection 7 then closes it and releases no
    token: nothing is idle, nothing is borrowed, no token is free, and the
    sum is 0. *)
Lemma Return_after_Close_loses_capacity :
  New (capConfig 0 1) dialOk [] = (Returns (inl pool01), []) /\
  accounted sysFresh /\
  step (OGet (Some 7%nat, None)) sysFresh
  = (Returns (RGot (inl (mkGConn (Some 7%nat) false))), sysBorrowed) /\
  accounted sysBorrowed /\
  step OClose sysBorrowed = (Returns RUnit, sysClosed) /\
  accounted sysClosed /\
  step (OReturn (Some 7%nat) None) sysClosed = (Returns (RErr None), sysReturned) /\
  total sysReturned = 0 /\
  MaxCap (config (pool (world sysReturned))) = 1 /\
  ~ accounted sysReturned.
Proof.
  repeat split; try (vm_compute; reflexivity).
  intros H. vm_compute in H. discriminate H.
Qed.

(** * Further properties of the code *)

(** ** New: configurations and failing factories *)

Lemma fillConns_error dial n : forall i w e w',
  fillConns n i dial w = (Returns (Some e), w') ->
  exists cause, e = ErrFillPool cause.
Proof.
  induction n as [|n IH]; intros i w e w' H.
  - discriminate H.
  - cbn [fillConns] in H. unfold bind at 1 2 3 in H.
    unfold getPool, callFactory in H.
    destruct (factory (pool w)); [|discriminate H].
    unfold ret at 1 in H.
    destruct (removeRemainingSpace w) as [[[]| |] w1]; try discriminate H.
    destruct (snd (dial i)) as [cause|].
    + unfold bind in H.
      destruct (Close w1) as [[[]| |] w2]; try discriminate H.
      destruct (addRemainingSpace w2) as [[[]| |] w3]; try discriminate H.
      injection H as <- _. eauto.
    + unfold bind at 1 2 in H.
      destruct (modifyPool _ w1) as [[[]| |] w2]; try discriminate H.
      destruct (sendConn _ w2) as [[[]| |] w3]; try discriminate H.
      apply (IH _ _ _ _ H).
Qed.

(** [New] answers "invalid capacity setting" exactly for the configurations
    with a negative [InitCap], a negative [MaxCap] or [InitCap > MaxCap]; it
    then calls neither the factory nor any [Close]. *)
Theorem New_invalid_capacity pc dial l :
  (invalidCapacity pc = true ->
   New pc dial l = (Returns (inr ErrInvalidCapacity), l)) /\
  (forall l', New pc dial l = (Returns (inr ErrInvalidCapacity), l') ->
              InitCap pc < 0 \/ MaxCap pc < 0 \/ MaxCap pc < InitCap pc).
Proof.
  split.
  - intros H. unfold New. unfold invalidCapacity in H. rewrite H. reflexivity.
  - intros l' H. unfold New in H.
    destruct (Z.ltb_spec (InitCap pc) 0); [auto|].
    destruct (Z.ltb_spec (MaxCap pc) 0); [auto|].
    rewrite Z.gtb_ltb in H.
    destruct (Z.ltb_spec (MaxCap pc) (InitCap pc)); [auto|].
    exfalso. cbn [orb] in H. unfold bind at 1 in H.
    destruct (fillTokens _ _) as [[[]| |] w1]; try discriminate H.
    destruct (fillConns _ _ _ w1) as [[[e|]| |] w2] eqn:E; try discriminate H.
    destruct (fillConns_error _ _ _ _ _ _ E) as [cause ->]. discriminate H.
Qed.

Lemma New_invalid_capacity_witness :
  New (capConfig 3 2) dialOk [] = (Returns (inr ErrInvalidCapacity), []).
Proof.
  apply (proj1 (New_invalid_capacity (capConfig 3 2) dialOk [])).
  reflexivity.
Defined.

(** With a valid configuration and a factory that succeeds [InitCap] times,
    [New] returns an open pool for which [Idle()] and [Len()] are both
    [InitCap]: the queue holds the connections in the order they were made,
    [MaxCap - InitCap] tokens are free, [createNum] is [InitCap], and no
    connection has been closed. *)
Theorem New_fills_pool pc dial l :
  0 <= InitCap pc <= MaxCap pc ->
  (forall j, (j < Z.to_nat (InitCap pc))%nat -> snd (dial j) = None) ->
  exists p,
    New pc dial l = (Returns (inl p), l) /\
    Idle (mkWorld p l) = (Returns (InitCap pc), mkWorld p l) /\
    Len (mkWorld p l) = (Returns (InitCap pc), mkWorld p l) /\
    conns p = Some (dialled dial 0 (Z.to_nat (InitCap pc))) /\
    Z.of_nat (remainingSpace p) = MaxCap pc - InitCap pc /\
    createNum p = InitCap pc /\
    config p = pc.
Proof.
  intros Hcap Hdial. eexists. split; [apply New_spec; assumption|].
  unfold Idle, Len, bind, getPool, ret. proj_simpl.
  unfold dialled. rewrite length_map, length_seq.
  repeat split; try reflexivity.
  - rewrite Z2Nat.id by lia. reflexivity.
  - lia.
Qed.

Lemma New_fills_pool_witness :
  exists p,
    New (capConfig 2 3) dialOk [] = (Returns (inl p), []) /\
    Idle (mkWorld p []) = (Returns 2, mkWorld p []) /\
    Len (mkWorld p []) = (Returns 2, mkWorld p []) /\
    conns p = Some [Some 0%nat; Some 1%nat] /\
    Z.of_nat (remainingSpace p) = 1 /\
    createNum p = 2 /\
    config p = capConfig 2 3.
Proof.
  apply (New_fills_pool (capConfig 2 3) dialOk []).
  - simpl. lia.
  - intros j Hj. reflexivity.
Defined.

Lemma fillConns_failure dial e k : forall n i p l q,
  conns p = Some q ->
  nonnil q ->
  factory p = true ->
  (forall j, (i <= j < i + k)%nat ->
             snd (dial j) = None /\ fst (dial j) <> None) ->
  snd (dial (i + k)%nat) = Some e ->
  (k < n)%nat ->
  (n <= remainingSpace p)%nat ->
  Z.of_nat (remainingSpace p) + Z.of_nat (length q) <= MaxCap (config p) ->
  exists p',
    fillConns n i dial (mkWorld p l)
    = (Returns (Some (ErrFillPool e)),
       mkWorld p' (l ++ ids (q ++ dialled dial i k))).
Proof.
  induction k as [|k IH]; intros n i p l q Hq Hnn Hf Hdial Hfail Hk Htok Hfit;
    (destruct n as [|n]; [lia|]);
    cbn [fillConns]; unfold_go; proj_simpl; rewrite Hf; proj_simpl;
    (destruct (remainingSpace p) as [|t] eqn:Et; [lia|]); proj_simpl.
  - rewrite Nat.add_0_r in Hfail. rewrite Hfail.
    rewrite (Close_open _ q) by (proj_simpl; assumption).
    rewrite drain_spec by (proj_simpl; solve [assumption | lia]).
    proj_simpl.
    destruct (Z.ltb_spec (Z.of_nat (t + length q)) (MaxCap (config p)));
      [|lia].
    unfold dialled. cbn [seq map]. rewrite app_nil_r. eauto.
  - destruct (Hdial i) as [Hok Hc]; [lia|]. rewrite Hok. proj_simpl.
    rewrite Hq.
    destruct (Z.ltb_spec (Z.of_nat (length q)) (MaxCap (config p))); [|lia].
    destruct (fst (dial i)) as [c|] eqn:Ec; [|contradiction].
    edestruct (IH n (S i)
                 (set_conns (Some (q ++ [Some c]))
                    (set_createNum (InitCap (config p))
                       (set_remainingSpace t p)))
                 l (q ++ [Some c])) as [p' Hp'];
      proj_simpl;
      [ reflexivity | apply nonnil_app; assumption | assumption
      | intros j Hj; apply Hdial; lia
      | replace (S i + k)%nat with (i + S k)%nat by lia; assumption
      | lia | lia
      | rewrite length_app; cbn [length]; lia | ].
    rewrite Hp'. exists p'. unfold dialled. cbn [seq map].
    rewrite Ec, <- app_assoc. reflexivity.
Qed.

(** When the factory succeeds [k] times and then fails while [New] is
    filling the pool, [New] returns the factory's error wrapped as "factory
    is not able to fill the pool" and no pool; the [k] connections made so
    far have each been closed once, in the order they were made. *)
Theorem New_factory_failure pc dial l k e :
  0 <= InitCap pc <= MaxCap pc ->
  (k < Z.to_nat (InitCap pc))%nat ->
  (forall j, (j < k)%nat -> snd (dial j) = None /\ fst (dial j) <> None) ->
  snd (dial k) = Some e ->
  New pc dial l
  = (Returns (inr (ErrFillPool e)), l ++ ids (dialled dial 0 k)) /\
  length (ids (dialled dial 0 k)) = k.
Proof.
  intros Hcap Hk Hdial Hfail. split.
  - unfold New.
    destruct (Z.ltb_spec (InitCap pc) 0); [lia|].
    destruct (Z.ltb_spec (MaxCap pc) 0); [lia|].
    rewrite Z.gtb_ltb.
    destruct (Z.ltb_spec (MaxCap pc) (InitCap pc)); [lia|].
    cbn [orb]. unfold bind at 1.
    rewrite fillTokens_spec by (proj_simpl; lia).
    edestruct (fillConns_failure dial e k (Z.to_nat (InitCap pc)) 0
                 (set_remainingSpace (0 + Z.to_nat (MaxCap pc))
                    (mkPool (Some []) true pc (InitCap pc) 0 0))
                 l []) as [p' Hp'];
      proj_simpl;
      [ reflexivity | constructor | reflexivity
      | intros j Hj; apply Hdial; lia | exact Hfail | assumption
      | lia | cbn [length]; lia | ].
    rewrite Hp'. reflexivity.
  - rewrite ids_nonnil_length.
    + unfold dialled. rewrite length_map, length_seq. reflexivity.
    + apply Forall_forall. intros c Hc. unfold dialled in Hc.
      apply in_map_iff in Hc. destruct Hc as (j & <- & Hj).
      apply in_seq in Hj. apply Hdial. lia.
Qed.

Lemma New_factory_failure_witness :
  New (capConfig 3 3)
    (fun i => if Nat.eqb i 2 then (None, Some (ErrExternal 9)) else dialOk i) []
  = (Returns (inr (ErrFillPool (ErrExternal 9))), [0%nat; 1%nat]).
Proof.
  apply (proj1 (New_factory_failure (capConfig 3 3)
    (fun i => if Nat.eqb i 2 then (None, Some (ErrExternal 9)) else dialOk i)
    [] 2%nat (ErrExternal 9)
    ltac:(simpl; lia) ltac:(simpl; lia)
    ltac:(intros [|[|j]] Hj; [split; [reflexivity | discriminate] .. | lia])
    eq_refl)).
Defined.

(** ** Return and Get: the idle queue is first in, first out *)

Ltac proj_cbv :=
  cbv beta iota delta
    [pool closed conns factory config idleConns createNum remainingSpace
     set_conns set_factory set_idleConns set_createNum set_remainingSpace].

(** [Return] of a connection followed by [Get].  On an open pool with an
    empty queue and room for one connection the caller gets the same
    connection back and the pool is exactly as before: no factory call, no
    token taken, [createNum] untouched.  When older connections are idle the
    caller gets the oldest of them and the returned one waits behind the
    rest. *)
Theorem Return_then_Get :
  (forall w c cerr fr,
      conns (pool w) = Some [] ->
      0 < MaxCap (config (pool w)) ->
      GoInt.min_int <= idleConns (pool w) < GoInt.max_int ->
      (Return (Some c) cerr ;; Get fr) w
      = (Returns (inl (mkGConn (Some c) false)), w)) /\
  (forall w c0 rest c cerr fr,
      conns (pool w) = Some (Some c0 :: rest) ->
      Z.of_nat (length (Some c0 :: rest)) < MaxCap (config (pool w)) ->
      GoInt.min_int <= idleConns (pool w) < GoInt.max_int ->
      (Return (Some c) cerr ;; Get fr) w
      = (Returns (inl (mkGConn (Some c0) false)),
         mkWorld (set_conns (Some (rest ++ [Some c])) (pool w)) (closed w))).
Proof.
  split.
  - intros w c cerr fr Hq Hcap Hrange. unfold bind at 1.
    rewrite (Return_borrowed_open w [] c cerr Hq) by (cbn [length]; lia).
    destruct w as [p l]; destruct p; proj_simpl. subst.
    unfold Get. unfold_go. proj_cbv. cbn [app].
    rewrite GoIntFacts.incr_no_overflow by lia.
    rewrite GoIntFacts.decr_no_underflow by lia.
    repeat f_equal. lia.
  - intros w c0 rest c cerr fr Hq Hroom Hrange. unfold bind at 1.
    rewrite (Return_borrowed_open w _ c cerr Hq Hroom).
    destruct w as [p l]; destruct p; proj_simpl. subst.
    unfold Get. unfold_go. proj_cbv. cbn [app].
    rewrite GoIntFacts.incr_no_overflow by lia.
    rewrite GoIntFacts.decr_no_underflow by lia.
    repeat f_equal. lia.
Qed.

Lemma Return_then_Get_witness :
  (Return (Some 7%nat) None ;; Get (None, None))
    (mkWorld (mkPool (Some []) true (capConfig 0 1) 0 1 0) [])
  = (Returns (inl (mkGConn (Some 7%nat) false)),
     mkWorld (mkPool (Some []) true (capConfig 0 1) 0 1 0) []) /\
  (Return (Some 7%nat) None ;; Get (None, None))
    (mkWorld (mkPool (Some [Some 4%nat]) true (capConfig 0 2) 1 2 0) [])
  = (Returns (inl (mkGConn (Some 4%nat) false)),
     mkWorld (mkPool (Some [Some 7%nat]) true (capConfig 0 2) 1 2 0) []).
Proof.
  split.
  - apply (proj1 Return_then_Get
             (mkWorld (mkPool (Some []) true (capConfig 0 1) 0 1 0) [])
             7%nat None (None, None) eq_refl).
    + simpl. lia.
    + vm_compute. split; [discriminate | reflexivity].
  - apply (proj2 Return_then_Get
             (mkWorld (mkPool (Some [Some 4%nat]) true (capConfig 0 2) 1 2 0) [])
             4%nat [] 7%nat None (None, None) eq_refl).
    + simpl. lia.
    + vm_compute. split; [discriminate | reflexivity].
Defined.

(** ** BlockingGet: the three cases of the select *)

Lemma ready_conn q p ctx :
  In CaseConn (ready q p ctx) -> exists c rest, q = c :: rest.
Proof.
  unfold ready. intros H. destruct q as [|c rest]; [|eauto].
  exfalso. destruct (remainingSpace p), ctx; simpl in H;
    intuition discriminate.
Qed.

(** When the select of [BlockingGet] receives from the idle queue, the call
    does exactly what [Get] does on that pool: same result, same world,
    whatever the context and the factory. *)
Theorem BlockingGet_idle_case_is_Get w q ctx pick fr fr' :
  conns (pool w) = Some q ->
  selectCase q (pool w) ctx pick = Some CaseConn ->
  BlockingGet ctx pick fr w = Get fr' w.
Proof.
  intros Hq Hsel.
  destruct (ready_conn _ _ _ (selectCase_ready _ _ _ _ _ Hsel))
    as (c & rest & ->).
  unfold BlockingGet, Get, bind, getPool. rewrite Hq, Hsel. reflexivity.
Qed.

Lemma BlockingGet_idle_case_is_Get_witness :
  BlockingGet None 5 (None, None)
    (mkWorld (mkPool (Some [Some 4%nat]) true (capConfig 1 1) 1 1 0) [])
  = Get (Some 9%nat, None)
    (mkWorld (mkPool (Some [Some 4%nat]) true (capConfig 1 1) 1 1 0) []).
Proof.
  apply (BlockingGet_idle_case_is_Get
           (mkWorld (mkPool (Some [Some 4%nat]) true (capConfig 1 1) 1 1 0) [])
           [Some 4%nat] None 5%nat (None, None) (Some 9%nat, None)
           eq_refl eq_refl).
Defined.

(** [BlockingGet] on an open pool with nothing idle and no free token never
    calls the factory.  With a nil or live context it blocks; with a context
    that is done it returns [ctx.Err()].  Either way the world is untouched.
    A context that is done does not take precedence: when a connection is
    idle as well, the select may still hand that connection out. *)
Theorem BlockingGet_without_capacity :
  (forall w pick fr,
      conns (pool w) = Some [] ->
      remainingSpace (pool w) = O ->
      BlockingGet None pick fr w = (Blocks, w)) /\
  (forall w pick fr e,
      conns (pool w) = Some [] ->
      remainingSpace (pool w) = O ->
      BlockingGet (Some e) pick fr w = (Returns (inr e), w)) /\
  (forall w c rest fr e,
      conns (pool w) = Some (Some c :: rest) ->
      remainingSpace (pool w) = O ->
      BlockingGet (Some e) 1 fr w = (Returns (inr e), w) /\
      fst (BlockingGet (Some e) 0 fr w)
      = Returns (inl (mkGConn (Some c) false))).
Proof.
  split; [|split].
  - intros w pick fr Hq Ht.
    unfold BlockingGet, bind, getPool, selectCase, ready.
    rewrite Hq, Ht. reflexivity.
  - intros w pick fr e Hq Ht.
    unfold BlockingGet, bind, getPool, selectCase, ready.
    rewrite Hq, Ht. cbn [app length]. rewrite Nat.mod_1_r. reflexivity.
  - intros w c rest fr e Hq Ht.
    unfold BlockingGet, bind, getPool, selectCase, ready.
    rewrite Hq, Ht. split; reflexivity.
Qed.

Lemma BlockingGet_without_capacity_witness :
  BlockingGet None 3 (Some 9%nat, None)
    (mkWorld (mkPool (Some []) true (capConfig 0 1) 0 1 0) [])
  = (Blocks, mkWorld (mkPool (Some []) true (capConfig 0 1) 0 1 0) []) /\
  BlockingGet (Some (ErrExternal 4)) 3 (Some 9%nat, None)
    (mkWorld (mkPool (Some []) true (capConfig 0 1) 0 1 0) [])
  = (Returns (inr (ErrExternal 4)),
     mkWorld (mkPool (Some []) true (capConfig 0 1) 0 1 0) []).
Proof.
  split.
  - apply (proj1 BlockingGet_without_capacity
             (mkWorld (mkPool (Some []) true (capConfig 0 1) 0 1 0) [])
             3%nat (Some 9%nat, None) eq_refl eq_refl).
  - apply (proj1 (proj2 BlockingGet_without_capacity)
             (mkWorld (mkPool (Some []) true (capConfig 0 1) 0 1 0) [])
             3%nat (Some 9%nat, None) (ErrExternal 4) eq_refl eq_refl).
Defined.

(** ** Get never waits for a token *)

Ltac bool_hyps :=
  repeat match goal with
         | H : (_ >? _) = _ |- _ => rewrite Z.gtb_ltb in H
         | H : (_ <? _) = true |- _ => apply Z.ltb_lt in H
         | H : (_ <? _) = false |- _ => apply Z.ltb_ge in H
         end.

Lemma drain_tokens q : forall w,
  tokensFit (pool w) ->
  tokensFit (pool (snd (drain q w))) /\
  (remainingSpace (pool w) <= remainingSpace (pool (snd (drain q w)))
     <= remainingSpace (pool w) + length q)%nat.
Proof.
  unfold tokensFit.
  induction q as [|c q IH]; intros w Hfit; cbn [drain length].
  - unfold ret. cbn [snd]. split; [assumption | lia].
  - destruct c as [c|]; unfold_go; proj_simpl; cbn [snd];
      [|split; [assumption | lia]].
    destruct (Z.ltb_spec (Z.of_nat (remainingSpace (pool w)))
                (MaxCap (config (pool w)))); cbn [snd]; proj_simpl;
      [|split; [assumption | lia]].
    match goal with |- context [drain q ?w'] => specialize (IH w') end.
    proj_simpl.
    destruct (drain q _) as [[[]| |] w'']; cbn [snd] in *;
      (destruct IH as [IH1 IH2]; [lia|]; split; [assumption | lia]).
Qed.

(** Every call keeps the token channel within its capacity and keeps tokens
    plus counter at [MaxCap] or above, as long as the counter does not run
    over. *)
Lemma exec_keeps_cover o w :
  tokensFit (pool w) ->
  tokensCover (pool w) ->
  GoInt.min_int <= createNum (pool w) < GoInt.max_int ->
  tokensFit (pool (after (exec o) w)) /\
  tokensCover (pool (after (exec o) w)).
Proof.
  unfold tokensFit, tokensCover. intros Hfit Hcov Hrange.
  destruct o as [fr|ctx pick fr|c cerr| |g cerr| |].
  - crush_call; bool_hyps; use_eqs;
      rewrite ?GoIntFacts.incr_no_overflow by lia; lia.
  - unfold exec, BlockingGet. unfold_go. proj_simpl.
    destruct (conns (pool w)) as [q|]; [|auto].
    destruct (selectCase q (pool w) ctx pick) as [[| |]|];
      crush_call; bool_hyps; use_eqs;
      rewrite ?GoIntFacts.incr_no_overflow by lia; lia.
  - crush_call.
  - unfold exec, fmap, bind, after.
    destruct (conns (pool w)) as [q|] eqn:Eq.
    + rewrite (Close_open _ _ Eq).
      pose proof (drain_tokens q
        (mkWorld (set_factory false (set_conns None (pool w))) (closed w))
        Hfit) as [Hfit' Htok].
      destruct (drain_pool q
        (mkWorld (set_factory false (set_conns None (pool w))) (closed w)))
        as (_ & _ & _ & Hn & Hc).
      unfold tokensFit in Hfit'.
      destruct (drain q _) as [[[]| |] w']; unfold ret; cbn [fst snd] in *;
        proj_simpl; rewrite Hc in Hfit'; rewrite Hn, Hc; lia.
    + rewrite (Close_closed _ Eq). cbn [fst snd]. proj_simpl. auto.
  - crush_call; bool_hyps; use_eqs; lia.
  - crush_call.
  - crush_call.
Qed.

Lemma run_keeps_cover tr : forall w,
  tokensFit (pool w) ->
  tokensCover (pool w) ->
  GoInt.min_int <= createNum (pool w) ->
  createNum (pool w) + Z.of_nat (length tr) < GoInt.max_int ->
  tokensFit (pool (run tr w)) /\
  tokensCover (pool (run tr w)) /\
  GoInt.min_int <= createNum (pool (run tr w)) < GoInt.max_int.
Proof.
  induction tr as [|o tr IH]; intros w Hfit Hcov Hmin Hmax; cbn [run].
  - cbn [length] in Hmax. repeat split; try assumption; lia.
  - cbn [length] in Hmax. rewrite Nat2Z.inj_succ in Hmax.
    destruct (exec_keeps_cover o w Hfit Hcov) as [Hfit' Hcov']; [lia|].
    destruct (exec_frame o w) as [_ [Hn | [_ Hn]]];
      [|rewrite GoIntFacts.incr_no_overflow in Hn by lia];
      apply IH; try assumption; lia.
Qed.

(** [Get] never blocks.  [New] makes a pool whose free tokens and creation
    counter add up to [MaxCap]; no call brings the sum below [MaxCap]; so
    whenever the counter lets [Get] create a connection there is a token for
    it.  This holds after any list of calls, as long as the 64-bit counter
    has not run over. *)
Theorem Get_never_blocks :
  (forall pc dial l,
      0 <= InitCap pc <= MaxCap pc ->
      (forall j, (j < Z.to_nat (InitCap pc))%nat -> snd (dial j) = None) ->
      exists p,
        New pc dial l = (Returns (inl p), l) /\
        tokensFit p /\ tokensCover p /\ 0 <= createNum p) /\
  (forall w tr fr,
      tokensFit (pool w) ->
      tokensCover (pool w) ->
      GoInt.min_int <= createNum (pool w) ->
      createNum (pool w) + Z.of_nat (length tr) < GoInt.max_int ->
      fst (Get fr (run tr w)) <> Blocks).
Proof.
  split.
  - intros pc dial l Hcap Hdial. eexists.
    split; [apply (New_spec pc dial l Hcap Hdial)|].
    unfold tokensFit, tokensCover. proj_simpl. lia.
  - intros w tr fr Hfit Hcov Hmin Hmax.
    destruct (run_keeps_cover tr w Hfit Hcov Hmin Hmax)
      as (Hfit' & Hcov' & Hrange).
    generalize dependent (run tr w). clear. intros w' Hfit Hcov Hrange.
    unfold tokensFit, tokensCover in *.
    unfold_ops; unfold_go; proj_simpl.
    repeat (break_match; cbn [fst snd] in *; proj_simpl); try discriminate;
      bool_hyps; use_eqs;
      rewrite ?GoIntFacts.incr_no_overflow in * by lia; lia.
Qed.

Lemma Get_never_blocks_witness :
  fst (Get (Some 9%nat, None)
         (run [OGet (Some 8%nat, None); OClose]
            (mkWorld (mkPool (Some []) true (capConfig 0 2) 0 0 2) [])))
  <> Blocks.
Proof.
  apply (proj2 Get_never_blocks
           (mkWorld (mkPool (Some []) true (capConfig 0 2) 0 0 2) [])
           [OGet (Some 8%nat, None); OClose] (Some 9%nat, None)).
  - unfold tokensFit. simpl. lia.
  - unfold tokensCover. simpl. lia.
  - vm_compute. discriminate.
  - vm_compute. reflexivity.
Defined.

(** ** Live connections never exceed [MaxCap] *)

Lemma drain_tokens_le q : forall w,
  (remainingSpace (pool (snd (drain q w)))
   <= remainingSpace (pool w) + length q)%nat.
Proof.
  induction q as [|c q IH]; intros w; cbn [drain length].
  - unfold ret. cbn [snd]. lia.
  - destruct c as [c|]; unfold_go; proj_simpl; cbn [snd]; [|lia].
    destruct (Z.of_nat (remainingSpace (pool w)) <? MaxCap (config (pool w)));
      cbn [snd]; proj_simpl; [|lia].
    match goal with |- context [drain q ?w'] => specialize (IH w') end.
    proj_simpl.
    destruct (drain q _) as [[[]| |] w'']; cbn [snd] in *; lia.
Qed.

(** No call raises the number of idle connections, borrowed connections and
    free tokens taken together, whatever its outcome, provided that what it
    gives back is borrowed. *)
Lemma step_total o s :
  givesBorrowed o s ->
  total (snd (step o s)) <= total s /\
  config (pool (world (snd (step o s)))) = config (pool (world s)).
Proof.
  intros Hgive. split.
  - destruct s as [[p l] b]. unfold step. proj_simpl.
    destruct (exec o (mkWorld p l)) as [r0 w'] eqn:E. cbn [snd].
    unfold total, idle. proj_simpl.
    destruct o as [fr|ctx pick fr|c cerr| |g cerr| |];
      cbn [givesBorrowed] in Hgive.
    + crush_in E; injection E as <- <-; unfold lend; proj_simpl; use_eqs;
        lia.
    + unfold exec, BlockingGet in E. unfold_go. proj_simpl.
      destruct (conns p) as [q|] eqn:Eq.
      * destruct (selectCase q p ctx pick) as [[| |]|];
          crush_in E; try rewrite Eq in *; injection E as <- <-;
          unfold lend; proj_simpl; use_eqs; lia.
      * injection E as <- <-. unfold lend. proj_simpl. rewrite Eq. lia.
    + destruct Hgive as (id & -> & Hin). proj_simpl.
      pose proof (remove1_length _ _ Hin).
      crush_in E; injection E as <- <-; unfold giveBack; proj_simpl;
        use_eqs; rewrite ?length_app; cbn [length]; lia.
    + unfold exec, fmap, bind in E.
      destruct (conns p) as [q|] eqn:Eq.
      * rewrite (Close_open (mkWorld p l) q Eq) in E. proj_simpl.
        pose proof (drain_tokens_le q
          (mkWorld (set_factory false (set_conns None p)) l)) as Htok.
        destruct (drain_pool q
          (mkWorld (set_factory false (set_conns None p)) l)) as (Hq & _).
        destruct (drain q _) as [[[]| |] w'']; unfold ret in E;
          injection E as <- <-; cbn [fst snd] in *; proj_simpl;
          rewrite Hq; lia.
      * rewrite (Close_closed (mkWorld p l) Eq) in E. unfold ret in E.
        injection E as <- <-. proj_simpl. rewrite Eq. lia.
    + destruct Hgive as (id & Hg & Hin). proj_simpl.
      pose proof (remove1_length _ _ Hin).
      destruct g as [c u]. proj_simpl. subst c.
      crush_in E; injection E as <- <-; unfold giveBack; proj_simpl;
        use_eqs; rewrite ?length_app; cbn [length]; lia.
    + crush_in E; injection E as <- <-; proj_simpl; use_eqs; lia.
    + crush_in E; injection E as <- <-; proj_simpl; lia.
  - unfold step. destruct (exec_frame o (world s)) as [Hc _].
    unfold after in Hc. destruct (exec o (world s)). exact Hc.
Qed.

(** Along any list of calls in which what is given back is borrowed, idle
    connections, borrowed connections and free tokens together never grow.
    Starting from at most [MaxCap] (as [New] does), the connections alive,
    idle or borrowed, never number more than [MaxCap], whether the calls
    return, panic or block. *)
Theorem live_connections_bounded tr : forall s,
  wellUsed tr s ->
  total s <= MaxCap (config (pool (world s))) ->
  total (steps tr s) <= total s /\
  config (pool (world (steps tr s))) = config (pool (world s)) /\
  idle (pool (world (steps tr s))) + Z.of_nat (length (borrowed (steps tr s)))
    <= MaxCap (config (pool (world s))).
Proof.
  assert (Hmono : forall tr s, wellUsed tr s ->
            total (steps tr s) <= total s /\
            config (pool (world (steps tr s))) = config (pool (world s))).
  { clear tr. induction tr as [|o tr IH]; intros s Hused; cbn [steps].
    - split; [lia | reflexivity].
    - destruct Hused as [Hgive Hused].
      destruct (step_total o s Hgive) as [Ht Hc].
      destruct (IH _ Hused) as [Ht' Hc'].
      split; [lia | congruence]. }
  intros s Hused Hle. destruct (Hmono tr s Hused) as [Ht Hc].
  repeat split; try assumption.
  unfold total in Ht, Hle. lia.
Qed.

Lemma live_connections_bounded_witness :
  idle (pool (world (steps [OGet (Some 7%nat, None); OReturn (Some 7%nat) None;
                            OBlockingGet None 0 (Some 8%nat, None)] sysFresh)))
  + Z.of_nat (length (borrowed
      (steps [OGet (Some 7%nat, None); OReturn (Some 7%nat) None;
              OBlockingGet None 0 (Some 8%nat, None)] sysFresh)))
  <= 1.
Proof.
  apply (proj2 (proj2 (live_connections_bounded
    [OGet (Some 7%nat, None); OReturn (Some 7%nat) None;
     OBlockingGet None 0 (Some 8%nat, None)] sysFresh
    ltac:(repeat split; exists 7%nat; split; [reflexivity | left; reflexivity])
    ltac:(vm_compute; discriminate)))).
Defined.

(** ** Idle() and Len() agree until Close *)

Lemma exec_keeps_idleInStep_any o w :
  o <> OClose ->
  MaxCap (config (pool w)) <= GoInt.max_int ->
  idleInStep (pool w) ->
  idleInStep (pool (after (exec o) w)) /\
  config (pool (after (exec o) w)) = config (pool w).
Proof.
  intros Hne Hmax (q & Hq & Hidle & Hnn & Hfit).
  pose proof GoIntFacts.min_int_neg as Hneg.
  unfold idleInStep, after.
  destruct (exec o w) as [out w'] eqn:H. cbn [snd].
  destruct w as [p l]. proj_simpl.
  assert (Hpush : forall c, Z.of_nat (length q) < MaxCap (config p) ->
            GoInt.incr (idleConns p) = Z.of_nat (length (q ++ [Some c]))).
  { intros c Hroom. rewrite length_app. cbn [length].
    rewrite GoIntFacts.incr_no_overflow; lia. }
  assert (Hpop : forall c rest, q = Some c :: rest ->
            GoInt.decr (idleConns p) = Z.of_nat (length rest)).
  { intros c rest ->. cbn [length] in *.
    rewrite GoIntFacts.decr_no_underflow; lia. }
  assert (Hsame : (exists q0, conns p = Some q0 /\
                     idleConns p = Z.of_nat (length q0) /\
                     nonnil q0 /\ Z.of_nat (length q0) <= MaxCap (config p))
                  /\ config p = config p)
    by (split; [exists q; auto | reflexivity]).
  destruct o as [fr|ctx pick fr|c cerr| |g cerr| |]; [| | | contradiction | | |];
    unfold exec in H; unfold_ops; unfold_go; proj_simpl; rewrite ?Hq in H.
  - destruct q as [|[c|] rest];
      crush_in H; injection H as <- <-; proj_simpl; rewrite ?Hq;
      inversion Hnn; subst; try contradiction;
      (split; [|reflexivity]); eexists; (split; [reflexivity|]);
      cbn [length] in *; repeat split; eauto; lia.
  - destruct (selectCase q p ctx pick) as [[| |]|];
      [| | |injection H as <- <-; exact Hsame];
      destruct q as [|[c|] rest];
      crush_in H; injection H as <- <-; proj_simpl; rewrite ?Hq;
      inversion Hnn; subst; try contradiction;
      (split; [|reflexivity]); eexists; (split; [reflexivity|]);
      cbn [length] in *; repeat split; eauto; lia.
  - destruct c as [c|]; [|injection H as <- <-; exact Hsame].
    proj_simpl. rewrite ?Hq in H.
    destruct (Z.ltb_spec (Z.of_nat (length q)) (MaxCap (config p)));
      injection H as <- <-; proj_simpl; rewrite ?Hq;
      (split; [|reflexivity]); eexists; (split; [reflexivity|]).
    + repeat split; [apply Hpush; assumption | apply nonnil_app; assumption |].
      rewrite length_app. cbn [length]. lia.
    + repeat split; assumption.
  - destruct g as [[c|] [|]]; proj_simpl;
      try (injection H as <- <-; exact Hsame).
    + destruct (Z.of_nat (remainingSpace p) <? MaxCap (config p));
        injection H as <- <-; proj_simpl; rewrite ?Hq;
        (split; [|reflexivity]); eexists; repeat split; eauto.
    + rewrite ?Hq in H.
      destruct (Z.ltb_spec (Z.of_nat (length q)) (MaxCap (config p)));
        injection H as <- <-; proj_simpl; rewrite ?Hq;
        (split; [|reflexivity]); eexists; (split; [reflexivity|]).
      * repeat split; [apply Hpush; assumption | apply nonnil_app; assumption |].
        rewrite length_app. cbn [length]. lia.
      * repeat split; assumption.
  - injection H as <- <-. exact Hsame.
  - injection H as <- <-. exact Hsame.
Qed.

(** As long as [Close] has not been called, [Idle()] and [Len()] return the
    same number, between 0 and [MaxCap], after any list of calls on a pool
    made by [New] (or on any pool whose [idleConns] is the length of its
    queue), whether the calls return, panic or block. *)
Theorem Idle_is_Len_until_Close tr : forall w,
  ~ In OClose tr ->
  MaxCap (config (pool w)) <= GoInt.max_int ->
  idleInStep (pool w) ->
  exists n,
    Idle (run tr w) = (Returns n, run tr w) /\
    Len (run tr w) = (Returns n, run tr w) /\
    0 <= n <= MaxCap (config (pool w)).
Proof.
  assert (Hrun : forall tr w, ~ In OClose tr ->
            MaxCap (config (pool w)) <= GoInt.max_int ->
            idleInStep (pool w) ->
            idleInStep (pool (run tr w)) /\
            config (pool (run tr w)) = config (pool w)).
  { clear tr. induction tr as [|o tr IH]; intros w Hno Hmax Hin; cbn [run].
    - split; [assumption | reflexivity].
    - assert (Hne : o <> OClose) by (intros ->; apply Hno; left; reflexivity).
      destruct (exec_keeps_idleInStep_any o w Hne Hmax Hin) as [Hin' Hc].
      destruct (IH (after (exec o) w)) as [Hin'' Hc''];
        [ intros Hx; apply Hno; right; exact Hx
        | rewrite Hc; assumption | assumption | ].
      split; [assumption | congruence]. }
  intros w Hno Hmax Hin.
  destruct (Hrun tr w Hno Hmax Hin) as [(q & Hq & Hidle & _ & Hfit) Hc].
  exists (Z.of_nat (length q)).
  unfold Idle, Len, bind, getPool, ret. rewrite Hq, Hidle, <- Hc.
  repeat split; lia.
Qed.

Lemma Idle_is_Len_until_Close_witness :
  exists n,
    Idle (run [OReturn (Some 7%nat) None; OGet (None, None)]
            (mkWorld (mkPool (Some []) true (capConfig 0 1) 0 1 0) []))
    = (Returns n, run [OReturn (Some 7%nat) None; OGet (None, None)]
            (mkWorld (mkPool (Some []) true (capConfig 0 1) 0 1 0) [])) /\
    Len (run [OReturn (Some 7%nat) None; OGet (None, None)]
            (mkWorld (mkPool (Some []) true (capConfig 0 1) 0 1 0) []))
    = (Returns n, run [OReturn (Some 7%nat) None; OGet (None, None)]
            (mkWorld (mkPool (Some []) true (capConfig 0 1) 0 1 0) [])) /\
    0 <= n <= 1.
Proof.
  apply (Idle_is_Len_until_Close
           [OReturn (Some 7%nat) None; OGet (None, None)]
           (mkWorld (mkPool (Some []) true (capConfig 0 1) 0 1 0) [])).
  - intros [H|[H|[]]]; discriminate H.
  - vm_compute. discriminate.
  - exists []. repeat split; try reflexivity; [constructor | simpl; lia].
Defined.

(** ** Shutting down *)

Lemma run_returnAll_closed cs : forall w,
  conns (pool w) = None ->
  run (returnAll cs) w = mkWorld (pool w) (closed w ++ cs).
Proof.
  induction cs as [|c cs IH]; intros w Hq; cbn [returnAll map run].
  - rewrite app_nil_r. destruct w; reflexivity.
  - unfold after, exec, fmap, bind.
    rewrite (Return_closed_pool w c None Hq). unfold ret. cbn [snd].
    fold (returnAll cs). rewrite IH by (proj_simpl; assumption).
    proj_simpl. rewrite <- app_assoc. reflexivity.
Qed.

(** [Close] followed by [Return] of the borrowed connections closes every
    connection there is: first the idle ones in queue order, by [Close],
    then each returned one, by [Return].  Nothing is closed twice and the
    closed pool is not changed by the returns: its queue stays detached and
    no token is added for them. *)
Theorem Close_then_Return_closes_all w q cs :
  conns (pool w) = Some q ->
  nonnil q ->
  Z.of_nat (remainingSpace (pool w)) + Z.of_nat (length q)
    <= MaxCap (config (pool w)) ->
  run (OClose :: returnAll cs) w
  = mkWorld (mkPool None false (config (pool w)) (idleConns (pool w))
               (createNum (pool w)) (remainingSpace (pool w) + length q))
            (closed w ++ ids q ++ cs).
Proof.
  intros Hq Hnn Hfit. cbn [run]. unfold after, exec, fmap, bind.
  rewrite (Close_open _ _ Hq), drain_spec by (proj_simpl; assumption).
  unfold ret. cbn [snd]. rewrite run_returnAll_closed by reflexivity.
  proj_simpl. rewrite <- app_assoc. reflexivity.
Qed.

Lemma Close_then_Return_closes_all_witness :
  run (OClose :: returnAll [7%nat; 8%nat])
    (mkWorld (mkPool (Some [Some 3%nat]) true (capConfig 1 3) 1 3 0) [])
  = mkWorld (mkPool None false (capConfig 1 3) 1 3 1) [3%nat; 7%nat; 8%nat].
Proof.
  apply (Close_then_Return_closes_all
           (mkWorld (mkPool (Some [Some 3%nat]) true (capConfig 1 3) 1 3 0) [])
           [Some 3%nat] [7%nat; 8%nat] eq_refl).
  - repeat constructor; discriminate.
  - simpl. lia.
Defined.

(** ** When Get panics *)

(** [Get] panics exactly when it sets out to create a connection (open pool,
    empty queue, incremented counter within [MaxCap]) and the factory is nil
    or hands back a nil connection, with or without an error: the log entry
    calls [RemoteAddr] on it.  The panic leaves [createNum] incremented and
    everything else as it was; no token has been taken. *)
Theorem Get_panics_iff w fr :
  (fst (Get fr w) = Panics <->
   conns (pool w) = Some [] /\
   GoInt.incr (createNum (pool w)) <= MaxCap (config (pool w)) /\
   (factory (pool w) = false \/ fst fr = None)) /\
  (fst (Get fr w) = Panics ->
   snd (Get fr w) = mkWorld (bumped (pool w)) (closed w)).
Proof.
  unfold bumped. split; [split|].
  - intros H. unfold_ops; unfold_go; proj_simpl.
    repeat (break_in H; cbn [fst snd] in *; proj_simpl);
      try discriminate H; bool_hyps;
      (split; [reflexivity | split; [lia | auto]]).
  - intros (Hq & Hle & Hnil). unfold_ops; unfold_go; proj_simpl.
    rewrite Hq. proj_simpl. rewrite Z.gtb_ltb.
    destruct (Z.ltb_spec (MaxCap (config (pool w)))
                (GoInt.incr (createNum (pool w)))); [lia|].
    destruct Hnil as [Hf | Hc].
    + rewrite Hf. reflexivity.
    + destruct (factory (pool w)); [|reflexivity].
      cbn [fst snd]. rewrite Hc. reflexivity.
  - intros H. unfold_ops; unfold_go; proj_simpl.
    repeat (break_match; cbn [fst snd] in *; proj_simpl);
      try discriminate H; reflexivity.
Qed.

Lemma Get_panics_iff_witness :
  fst (Get (None, Some (ErrExternal 1))
         (mkWorld (mkPool (Some []) true (capConfig 0 1) 0 0 1) []))
  = Panics.
Proof.
  apply (proj2 (proj1 (Get_panics_iff
           (mkWorld (mkPool (Some []) true (capConfig 0 1) 0 0 1) [])
           (None, Some (ErrExternal 1))))).
  split; [reflexivity|]. split; [vm_compute; discriminate|].
  right. reflexivity.
Defined.

(** ** Closing a wrapper twice *)

(** A wrapper keeps no record of having been closed.  Closed twice when
    marked unusable, it calls the connection's own [Close] twice and adds
    two tokens for the one connection.  Closed twice when usable, on an open
    pool with room, it puts the same connection into the idle queue twice,
    and the next two calls of [Get] hand that one connection out twice. *)
Theorem GConn_Close_twice :
  (forall w c cerr1 cerr2,
      Z.of_nat (remainingSpace (pool w)) + 2 <= MaxCap (config (pool w)) ->
      (GConn_Close (mkGConn (Some c) true) cerr1 ;;
       GConn_Close (mkGConn (Some c) true) cerr2) w
      = (Returns cerr2,
         mkWorld (set_remainingSpace (S (S (remainingSpace (pool w)))) (pool w))
                 (closed w ++ [c; c]))) /\
  (forall w q c cerr1 cerr2,
      conns (pool w) = Some q ->
      Z.of_nat (length q) + 2 <= MaxCap (config (pool w)) ->
      (GConn_Close (mkGConn (Some c) false) cerr1 ;;
       GConn_Close (mkGConn (Some c) false) cerr2) w
      = (Returns None,
         mkWorld (set_idleConns (GoInt.incr (GoInt.incr (idleConns (pool w))))
                    (set_conns (Some (q ++ [Some c; Some c])) (pool w)))
                 (closed w))) /\
  (forall w c cerr1 cerr2 fr1 fr2,
      conns (pool w) = Some [] ->
      2 <= MaxCap (config (pool w)) ->
      exists w',
        (GConn_Close (mkGConn (Some c) false) cerr1 ;;
         GConn_Close (mkGConn (Some c) false) cerr2 ;;
         g1 <- Get fr1 ;; g2 <- Get fr2 ;; ret (g1, g2)) w
        = (Returns (inl (mkGConn (Some c) false), inl (mkGConn (Some c) false)),
           w')).
Proof.
  split; [|split].
  - intros w c cerr1 cerr2 Hroom. unfold bind at 1.
    rewrite GConn_Close_unusable by lia.
    rewrite GConn_Close_unusable by (proj_simpl; lia).
    proj_simpl. rewrite <- app_assoc. reflexivity.
  - intros w q c cerr1 cerr2 Hq Hroom. unfold bind at 1.
    change (GConn_Close (mkGConn (Some c) false) cerr1 w)
      with (Return (Some c) cerr1 w).
    rewrite (Return_borrowed_open w q c cerr1 Hq) by lia.
    change (GConn_Close (mkGConn (Some c) false) cerr2)
      with (Return (Some c) cerr2).
    rewrite (Return_borrowed_open _ (q ++ [Some c]) c cerr2)
      by (proj_simpl; rewrite ?length_app; cbn [length]; reflexivity || lia).
    proj_simpl. rewrite <- app_assoc. reflexivity.
  - intros w c cerr1 cerr2 fr1 fr2 Hq Hcap. eexists.
    unfold bind at 1.
    change (GConn_Close (mkGConn (Some c) false) cerr1 w)
      with (Return (Some c) cerr1 w).
    rewrite (Return_borrowed_open w [] c cerr1 Hq) by (cbn [length]; lia).
    unfold bind at 1.
    change (GConn_Close (mkGConn (Some c) false) cerr2)
      with (Return (Some c) cerr2).
    rewrite (Return_borrowed_open _ [Some c] c cerr2)
      by (proj_simpl; cbn [length]; reflexivity || lia).
    unfold Get. unfold_go. proj_simpl. reflexivity.
Qed.

Lemma GConn_Close_twice_witness :
  (GConn_Close (mkGConn (Some 7%nat) true) None ;;
   GConn_Close (mkGConn (Some 7%nat) true) None)
    (mkWorld (mkPool (Some []) true (capConfig 0 2) 0 1 0) [])
  = (Returns None,
     mkWorld (mkPool (Some []) true (capConfig 0 2) 0 1 2) [7%nat; 7%nat]).
Proof.
  apply (proj1 GConn_Close_twice
           (mkWorld (mkPool (Some []) true (capConfig 0 2) 0 1 0) [])
           7%nat None None).
  simpl. lia.
Defined.

(** ** When BlockingGet blocks *)

Lemma ready_done q p ctx :
  In CaseDone (ready q p ctx) -> exists e, ctx = Some e.
Proof.
  unfold ready. intros H. destruct ctx as [e|]; [eauto|].
  exfalso. destruct q, (remainingSpace p); simpl in H;
    intuition discriminate.
Qed.

(** On a pool whose token channel is within its capacity, [BlockingGet]
    blocks exactly when the pool is open, no connection is idle, no token is
    free and the context is nil or not done.  In every other situation some
    case of the select proceeds and the call comes to an end. *)
Theorem BlockingGet_blocks_iff w ctx pick fr :
  tokensFit (pool w) ->
  (fst (BlockingGet ctx pick fr w) = Blocks <->
   conns (pool w) = Some [] /\ remainingSpace (pool w) = O /\ ctx = None).
Proof.
  unfold tokensFit. intros Hfit. split.
  - intros H. unfold BlockingGet, bind, getPool in H.
    destruct (conns (pool w)) as [q|] eqn:Eq; [|discriminate H].
    destruct (selectCase q (pool w) ctx pick) as [k|] eqn:Esel.
    + exfalso. pose proof (selectCase_ready _ _ _ _ _ Esel) as Hin.
      destruct k.
      * destruct (ready_conn _ _ _ Hin) as (c & rest & ->).
        destruct c; discriminate H.
      * destruct (ready_token _ _ _ Hin) as [t Ht].
        revert H. unfold_ops; unfold_go; proj_simpl. rewrite Ht.
        repeat (break_match; cbn [fst snd] in *; proj_simpl);
          try discriminate; bool_hyps; lia.
      * destruct (ready_done _ _ _ Hin) as [e ->]. discriminate H.
    + unfold selectCase, ready in Esel.
      destruct q, (remainingSpace (pool w)), ctx; try discriminate Esel.
      auto.
  - intros (Hq & Ht & ->).
    unfold BlockingGet, bind, getPool, selectCase, ready.
    rewrite Hq, Ht. reflexivity.
Qed.

Lemma BlockingGet_blocks_iff_witness :
  fst (BlockingGet None 2 (None, None)
         (mkWorld (mkPool (Some []) true (capConfig 0 1) 0 1 0) []))
  = Blocks.
Proof.
  apply (proj2 (BlockingGet_blocks_iff
           (mkWorld (mkPool (Some []) true (capConfig 0 1) 0 1 0) [])
           None 2%nat (None, None)
           ltac:(unfold tokensFit; simpl; lia))).
  repeat split.
Defined.

(** ** Return never loses a connection *)

